(** * File sorter and word counter: a shallow embedding

    Source files: [task1.py] (asynchronous file sorter) and [task2.py]
    (map/reduce word counter).

    Conventions of the embedding.
    - A Python [str] is a Rocq [string]; the model covers the ASCII code
      points, on which [str.lower] and the regex class [\w] are the usual
      ASCII ones.
    - A resolved [pathlib.Path] is the list of its components below the
      filesystem root; [Path.name], [Path.stem] and [Path.suffix] follow
      pathlib as documented for Python 3.4 to 3.13.
    - The filesystem is a tree of nodes with the permission bits the code
      can observe, without symbolic links: every path names the node it
      leads to, and two paths never lead to the same node.  Every system
      call of the source ([os.scandir], [open], [makedirs], [shutil.move])
      and every [logger] call appends one event to a trace.
    - [asyncio] tasks are interleaved by an event loop that is driven by an
      arbitrary schedule. *)

From Stdlib Require Import Ascii.
From stdpp Require Import gmap strings list pretty sorting.

(** ** Strings *)

Module Str.

(** [s[i:]] *)
Fixpoint slice_from (i : nat) (s : string) : string :=
  match i, s with
  | O, _ => s
  | S i', String _ s' => slice_from i' s'
  | S _, EmptyString => EmptyString
  end.

(** [s[:i]] *)
Fixpoint slice_to (i : nat) (s : string) : string :=
  match i, s with
  | O, _ => EmptyString
  | S i', String a s' => String a (slice_to i' s')
  | S _, EmptyString => EmptyString
  end.

(** [s[i:j]] *)
Definition slice (i j : nat) (s : string) : string :=
  slice_to (j - i) (slice_from i s).

(** [s.rfind(c)], with [None] for Python's [-1]. *)
Fixpoint rfind (c : ascii) (s : string) : option nat :=
  match s with
  | EmptyString => None
  | String a s' =>
      match rfind c s' with
      | Some i => Some (S i)
      | None => if decide (a = c) then Some 0 else None
      end
  end.

Definition is_upper (c : ascii) : bool :=
  let n := nat_of_ascii c in (65 <=? n) && (n <=? 90).

Definition lower_char (c : ascii) : ascii :=
  if is_upper c then ascii_of_nat (nat_of_ascii c + 32) else c.

(** [s.lower()] *)
Fixpoint lower (s : string) : string :=
  match s with
  | EmptyString => EmptyString
  | String a s' => String (lower_char a) (lower s')
  end.

(** [s.startswith(c)] for a one-character prefix. *)
Definition startswith (c : ascii) (s : string) : bool :=
  match s with
  | String a _ => bool_decide (a = c)
  | EmptyString => false
  end.

(** The regex class [\w]. *)
Definition is_word_char (c : ascii) : bool :=
  let n := nat_of_ascii c in
  ((48 <=? n) && (n <=? 57)) || ((65 <=? n) && (n <=? 90))
  || ((97 <=? n) && (n <=? 122)) || (n =? 95).

End Str.

(** ** Paths (pathlib) *)

Abbreviation path := (list string).

Module Pathlib.

(** [p.name] *)
Definition name (p : path) : string := default "" (last p).

(** [p / child] *)
Definition joinpath (p : path) (child : string) : path := p ++ [child].

(** The position of the dot that starts the suffix: pathlib takes
    [i = name.rfind('.')] and accepts it when [0 < i < len(name) - 1]. *)
Definition suffix_index (nm : string) : option nat :=
  match Str.rfind "." nm with
  | Some i =>
      if (0 <? i) && (i <? String.length nm - 1) then Some i else None
  | None => None
  end.

(** [PurePath(nm).suffix] *)
Definition suffix_of (nm : string) : string :=
  match suffix_index nm with
  | Some i => Str.slice_from i nm
  | None => ""
  end.

(** [PurePath(nm).stem] *)
Definition stem_of (nm : string) : string :=
  match suffix_index nm with
  | Some i => Str.slice_to i nm
  | None => nm
  end.

Definition suffix (p : path) : string := suffix_of (name p).
Definition stem (p : path) : string := stem_of (name p).

End Pathlib.

(** ** task2.py: the map/reduce word counter *)

Module MapReduce.

(** [re.findall(r'\b\w+\b', s)]: the maximal runs of word characters,
    from left to right.  [cur] is the run being read. *)
Fixpoint findall_go (cur : string) (s : string) : list string :=
  match s with
  | EmptyString => if decide (cur = "") then [] else [cur]
  | String c s' =>
      if Str.is_word_char c then findall_go (cur +:+ String c "") s'
      else if decide (cur = "") then findall_go "" s'
      else cur :: findall_go "" s'
  end.

Definition findall_words (s : string) : list string := findall_go "" s.

Definition map_function (text : string) : list (string * nat) :=
  let words := findall_words (Str.lower text) in
  (λ word, (word, 1)) <$> filter (λ word, 2 < String.length word) words.

(** [Counter()] with [word_counts[word] += count]. *)
Definition reduce_function (mapped_data : list (string * nat))
  : gmap string nat :=
  foldl (λ word_counts '(word, count),
           <[word := default 0 (word_counts !! word) + count]> word_counts)
        ∅ mapped_data.

(** [range(0, n, step)] for [step > 0]. *)
Definition range_step (n step : nat) : list nat :=
  (λ k, k * step) <$> seq 0 ((n + step - 1) / step).

(** [None] stands for the [ZeroDivisionError] of [num_workers = 0]. *)
Definition parallel_map (num_workers : nat) (text : string)
  : option (list (string * nat)) :=
  if decide (num_workers = 0) then None
  else
    let chunk_size := (String.length text / num_workers) `max` 1 in
    let chunks :=
      (λ i, Str.slice i (i + chunk_size) text)
        <$> range_step (String.length text) chunk_size in
    let mapped_chunks := map_function <$> chunks in
    Some (concat mapped_chunks).

(** The pipeline of [main]: four workers, map, then reduce. *)
Definition word_frequencies (text : string) : option (gmap string nat) :=
  reduce_function <$> parallel_map 4 text.

(** The counts of the tokens of the whole text: map, then reduce, with no
    chunking in between. *)
Definition whole_text_frequencies (text : string) : gmap string nat :=
  reduce_function (map_function text).

End MapReduce.

(** ** The filesystem and the observable events *)

Module FS.

(** A node of the tree.  [Special] is a socket, FIFO or device: it
    exists, and is neither [is_file()] nor [is_dir()].  There is no node
    for a symbolic link: the trees are those in which [entry.is_file()]
    and [entry.is_dir()] have no link to follow. *)
#[warnings="-register-all"]
Inductive node :=
| File (readable : bool) (data : string)
| Dir (listable writable : bool) (entries : list (string * node))
| Special.

Inductive exn :=
| PermissionError
| FileNotFoundError
| FileExistsError
| NotADirectoryError.

Definition is_file (nd : node) : bool :=
  match nd with File _ _ => true | _ => false end.

Definition is_dir (nd : node) : bool :=
  match nd with Dir _ _ _ => true | _ => false end.

(** The first entry called [nm] of a directory listing. *)
Fixpoint entry (nm : string) (es : list (string * node)) : option node :=
  match es with
  | [] => None
  | (n, nd) :: es' => if decide (n = nm) then Some nd else entry nm es'
  end.

Fixpoint set_entry (nm : string) (new : node) (es : list (string * node))
  : list (string * node) :=
  match es with
  | [] => [(nm, new)]
  | (n, nd) :: es' =>
      if decide (n = nm) then (n, new) :: es'
      else (n, nd) :: set_entry nm new es'
  end.

Definition remove_entry (nm : string) (es : list (string * node))
  : list (string * node) :=
  filter (λ ne, ne.1 ≠ nm) es.

Fixpoint lookup (p : path) (nd : node) : option node :=
  match p with
  | [] => Some nd
  | n :: p' =>
      match nd with
      | Dir _ _ es =>
          match entry n es with
          | Some child => lookup p' child
          | None => None
          end
      | _ => None
      end
  end.

(** [os.path.exists(p)] *)
Definition exists_ (fs : node) (p : path) : bool :=
  bool_decide (is_Some (lookup p fs)).

(** The names listed in the directory at [p]; none when [p] is not a
    directory. *)
Definition listing (fs : node) (p : path) : list string :=
  match lookup p fs with
  | Some (Dir _ _ es) => es.*1
  | _ => []
  end.

(** A chain of fresh directories [n1/n2/...], as [mkdir] creates them. *)
Fixpoint fresh_dirs (p : path) : node :=
  match p with
  | [] => Dir true true []
  | n :: p' => Dir true true [(n, fresh_dirs p')]
  end.

(** [os.makedirs(p, exist_ok=True)] from the node [nd] downwards. *)
Fixpoint makedirs (p : path) (nd : node) : exn + node :=
  match p with
  | [] =>
      match nd with
      | Dir _ _ _ => inr nd
      | _ => inl FileExistsError
      end
  | n :: p' =>
      match nd with
      | Dir l w es =>
          match entry n es with
          | Some child =>
              match makedirs p' child with
              | inr child' => inr (Dir l w (set_entry n child' es))
              | inl e => inl e
              end
          | None =>
              if w then inr (Dir l w (set_entry n (fresh_dirs p') es))
              else inl PermissionError
          end
      | _ => inl NotADirectoryError
      end
  end.

(** Unlink the entry at [p]. *)
Fixpoint remove_at (p : path) (nd : node) : node :=
  match p, nd with
  | [n], Dir l w es => Dir l w (remove_entry n es)
  | n :: p', Dir l w es =>
      match entry n es with
      | Some child => Dir l w (set_entry n (remove_at p' child) es)
      | None => nd
      end
  | _, _ => nd
  end.

(** Link [new] at [p]; the parent of [p] has to be a directory. *)
Fixpoint insert_at (p : path) (new : node) (nd : node) : node :=
  match p, nd with
  | [n], Dir l w es => Dir l w (set_entry n new es)
  | n :: p', Dir l w es =>
      match entry n es with
      | Some child => Dir l w (set_entry n (insert_at p' new child) es)
      | None => nd
      end
  | _, _ => nd
  end.

(** [p.parent] *)
Definition parent (p : path) : path := removelast p.

(** [shutil.move(src, dst)] for a [dst] that does not exist.  The move
    is [os.rename], which needs write permission on both directories.
    When [rename] is refused, [shutil.move] copies a regular file
    ([copy2], which needs to read it and to write into the directory of
    [dst]) and then unlinks [src]; with a read-only source directory the
    unlink is refused after the copy was made. *)
Definition shutil_move (src dst : path) (fs : node) : option exn * node :=
  match lookup src fs with
  | None => (Some FileNotFoundError, fs)
  | Some nd =>
      match lookup (parent dst) fs with
      | Some (Dir _ true _) =>
          match lookup (parent src) fs with
          | Some (Dir _ true _) => (None, insert_at dst nd (remove_at src fs))
          | _ =>
              match nd with
              | File true _ => (Some PermissionError, insert_at dst nd fs)
              | _ => (Some PermissionError, fs)
              end
          end
      | Some (Dir _ false _) => (Some PermissionError, fs)
      | Some _ => (Some NotADirectoryError, fs)
      | None => (Some FileNotFoundError, fs)
      end
  end.

End FS.

(** ** Logging and the event trace *)

Inductive level := INFO | WARNING | ERROR.

(** One constructor for each message format of [task1.py].  The handlers
    of lines 67 to 72 and 138 to 139 log [NoAccessToEntry] and
    [ErrorDuringProcessing]; nothing below them raises here, so these two
    are never emitted. *)
Inductive message :=
| ErrorCreatingDirectory (p : path) (e : FS.exn)
| SkippingSystemDirectory (p : path)
| NoAccessToFile (p : path)
| NoAccessToDirectory (p : path)
| NoAccessToEntry (p : path)
| ErrorScanningDirectory (p : path) (e : FS.exn)
| SuccessfullyMoved (src dst : path)
| NoPermissionToMove (src : path)
| ErrorMovingFile (src : path) (e : FS.exn)
| ErrorProcessingFile (src : path) (e : FS.exn)
| NoAccessibleFiles
| Progress (processed_files total_files : nat)
| ProcessingCompleted (total_files : nat)
| FilesProcessedByExtension
| ExtensionLine (ext : string) (count : nat)
| ErrorDuringProcessing (e : FS.exn)
| SourceDoesNotExist (p : path)
| SourceAndDestinationSame
| ProcessInterrupted
| ProcessFailed (e : FS.exn)
| ProcessFinished.

Inductive event :=
| Log (lvl : level) (msg : message)
| SysScandir (p : path)
| SysOpen (p : path)
| SysMakedirs (p : path)
| SysMove (src dst : path).

#[global] Instance exn_eq_dec : EqDecision FS.exn.
Proof. solve_decision. Defined.

#[global] Instance level_eq_dec : EqDecision level.
Proof. solve_decision. Defined.

#[global] Instance message_eq_dec : EqDecision message.
Proof. solve_decision. Defined.

#[global] Instance event_eq_dec : EqDecision event.
Proof. solve_decision. Defined.

Record world := World { fs : FS.node; trace : list event }.

Definition emit (evs : list event) (w : world) : world :=
  World (fs w) (trace w ++ evs).

(** ** task1.py: the directory walker *)

Definition SYSTEM_DIRS : gset string :=
  {[ "System Volume Information"; "$Recycle.Bin"; "Config.Msi";
     "Documents and Settings"; "Program Files"; "Program Files (x86)";
     "Windows"; "Recovery" ]}.

(** The body of the [for entry in os.scandir(...)] loop; [recurse] is
    [get_all_files] itself. *)
Definition visit_entry (recurse : path → FS.node → gset path * list event)
    (source_dir : path) (nm : string) (e : FS.node) : gset path * list event :=
  let entry_path := Pathlib.joinpath source_dir nm in
  if FS.is_dir e && bool_decide (nm ∈ SYSTEM_DIRS) then
    (∅, [Log INFO (SkippingSystemDirectory entry_path)])
  else if FS.is_file e then
    match e with
    | FS.File true _ => ({[ entry_path ]}, [SysOpen entry_path])
    | _ => (∅, [SysOpen entry_path; Log WARNING (NoAccessToFile entry_path)])
    end
  else if FS.is_dir e && negb (Str.startswith "." nm) then
    recurse entry_path e
  else (∅, []).

(** The loop: [files.add] and [files.update] accumulate the set, the
    events follow the order in which [os.scandir] lists the entries. *)
Definition scan_entries (recurse : path → FS.node → gset path * list event)
    (source_dir : path)
  : list (string * FS.node) → gset path * list event :=
  fix scan es :=
    match es with
    | [] => (∅, [])
    | (nm, e) :: es' =>
        let here := visit_entry recurse source_dir nm e in
        let rest := scan es' in
        (here.1 ∪ rest.1, here.2 ++ rest.2)
    end.

(** [get_all_files] on the node [nd] found at [source_dir]: the set it
    returns and the events it produces. *)
Fixpoint get_all_files_at (source_dir : path) (nd : FS.node)
  : gset path * list event :=
  if decide (Pathlib.name source_dir ∈ SYSTEM_DIRS) then
    (∅, [Log INFO (SkippingSystemDirectory source_dir)])
  else
    match nd with
    | FS.Dir true _ entries =>
        let found := scan_entries get_all_files_at source_dir entries in
        (found.1, SysScandir source_dir :: found.2)
    | FS.Dir false _ _ =>
        (∅, [SysScandir source_dir;
             Log WARNING (NoAccessToDirectory source_dir)])
    | _ =>
        (∅, [SysScandir source_dir;
             Log ERROR (ErrorScanningDirectory source_dir FS.NotADirectoryError)])
    end.

Definition get_all_files (fs : FS.node) (source_dir : path)
  : gset path * list event :=
  match FS.lookup source_dir fs with
  | Some nd => get_all_files_at source_dir nd
  | None =>
      if decide (Pathlib.name source_dir ∈ SYSTEM_DIRS) then
        (∅, [Log INFO (SkippingSystemDirectory source_dir)])
      else
        (∅, [SysScandir source_dir;
             Log ERROR (ErrorScanningDirectory source_dir FS.FileNotFoundError)])
  end.

(** ** task1.py: moving one file *)

(** [source.suffix[1:].lower() if source.suffix else 'no_extension'] *)
Definition extension_key (file : path) : string :=
  if decide (Pathlib.suffix file = "") then "no_extension"
  else Str.lower (Str.slice_from 1 (Pathlib.suffix file)).

(** The system call of [create_directory]; [aiofiles] runs it on a worker
    thread while the calling task is suspended. *)
Definition makedirs_call (p : path) (w : world) : option FS.exn * world :=
  match FS.makedirs p (fs w) with
  | inr fs' => (None, World fs' (trace w ++ [SysMakedirs p]))
  | inl e => (Some e, World (fs w) (trace w ++ [SysMakedirs p]))
  end.

(** The rest of [create_directory], once the call has returned: an
    exception is logged and raised again. *)
Definition create_directory_resume (p : path) (r : option FS.exn) (w : world)
  : option FS.exn * world :=
  match r with
  | Some e => (Some e, emit [Log ERROR (ErrorCreatingDirectory p e)] w)
  | None => (None, w)
  end.

Definition create_directory (p : path) (w : world) : option FS.exn * world :=
  let '(r, w1) := makedirs_call p w in
  create_directory_resume p r w1.

(** The [while os.path.exists(destination)] loop of [move_file], entered
    with the current [counter] and [destination]. *)
Fixpoint collision_loop (fuel : nat) (fs : FS.node) (source target_dir : path)
    (counter : nat) (destination : path) : option path :=
  if FS.exists_ fs destination then
    match fuel with
    | O => None
    | S fuel' =>
        let stem := Pathlib.stem source in
        let new_name := stem +:+ "_" +:+ pretty counter +:+ Pathlib.suffix source in
        collision_loop fuel' fs source target_dir (S counter)
          (Pathlib.joinpath target_dir new_name)
    end
  else Some destination.

(** Lines 85 to 92 of [move_file].  The loop cannot run longer than the
    listing of [target_dir], which makes it total. *)
Definition resolve_destination (fs : FS.node) (source target_dir : path)
  : option path :=
  collision_loop (length (FS.listing fs target_dir)) fs source target_dir 1
    (Pathlib.joinpath target_dir (Pathlib.name source)).

Definition target_dir_of (source dest_dir : path) : path :=
  Pathlib.joinpath dest_dir (extension_key source).

(** [move_file] up to its only suspension point, [await create_directory]. *)
Definition move_file_begin (source dest_dir : path) (w : world)
  : option FS.exn * world :=
  makedirs_call (target_dir_of source dest_dir) w.

(** [move_file] from that point to its end; this part has no [await]. *)
Definition move_file_resume (source dest_dir : path) (r : option FS.exn)
    (w : world) : world :=
  let target_dir := target_dir_of source dest_dir in
  match create_directory_resume target_dir r w with
  | (Some e, w1) => emit [Log ERROR (ErrorProcessingFile source e)] w1
  | (None, w1) =>
      match resolve_destination (fs w1) source target_dir with
      | Some destination =>
          match FS.shutil_move source destination (fs w1) with
          | (None, fs') =>
              World fs' (trace w1 ++ [SysMove source destination;
                           Log INFO (SuccessfullyMoved source destination)])
          | (Some FS.PermissionError, fs') =>
              World fs' (trace w1 ++ [SysMove source destination;
                           Log WARNING (NoPermissionToMove source)])
          | (Some e, fs') =>
              World fs' (trace w1 ++ [SysMove source destination;
                           Log ERROR (ErrorMovingFile source e)])
          end
      | None => w1
      end
  end.

Definition move_file (source dest_dir : path) (w : world) : world :=
  let '(r, w1) := move_file_begin source dest_dir w in
  move_file_resume source dest_dir r w1.

(** ** task1.py: the bounded gather of [process_files] *)

(** Where a [move_with_progress] task stands.
    - [Queued]: created, not yet past [async with semaphore].
    - [Acquired]: holds a slot and is suspended in [await create_directory].
    - [Resumable r]: holds a slot; the [makedirs] call has returned [r].
    - [Finished]: has left the [async with] block. *)
Inductive phase :=
| Queued
| Acquired
| Resumable (r : option FS.exn)
| Finished.

Record gather_state := GatherState {
  g_world : world;
  g_semaphore : nat;          (* the value of [asyncio.Semaphore(10)] *)
  g_processed_files : nat;
  g_tasks : list (path * phase)
}.

Definition holds_slot (ph : phase) : bool :=
  match ph with
  | Acquired | Resumable _ => true
  | Queued | Finished => false
  end.

(** The tasks between slot acquisition and slot release. *)
Definition in_flight (s : gather_state) : nat :=
  length (filter (λ t, holds_slot t.2 = true) (g_tasks s)).

Definition set_phase (i : nat) (file : path) (ph : phase) (s : gather_state)
  : list (path * phase) :=
  <[i := (file, ph)]> (g_tasks s).

(** One uninterrupted run of task [i], from where it stands to its next
    suspension point; [None] when the task cannot run. *)
Definition move_with_progress (dest_dir : path) (total_files : nat) (i : nat)
    (s : gather_state) : option gather_state :=
  match g_tasks s !! i with
  | Some (file, Queued) =>
      match g_semaphore s with
      | O => None
      | S value =>
          Some (GatherState (g_world s) value (g_processed_files s)
                  (set_phase i file Acquired s))
      end
  | Some (file, Acquired) =>
      let '(r, w1) := move_file_begin file dest_dir (g_world s) in
      Some (GatherState w1 (g_semaphore s) (g_processed_files s)
              (set_phase i file (Resumable r) s))
  | Some (file, Resumable r) =>
      let w1 := move_file_resume file dest_dir r (g_world s) in
      let processed_files := S (g_processed_files s) in
      let w2 :=
        if decide (processed_files `mod` 10 = 0) then
          emit [Log INFO (Progress processed_files total_files)] w1
        else w1 in
      Some (GatherState w2 (S (g_semaphore s)) processed_files
              (set_phase i file Finished s))
  | Some (_, Finished) | None => None
  end.

Definition runnable (s : gather_state) (i : nat) : bool :=
  match g_tasks s !! i with
  | Some (_, Queued) => bool_decide (0 < g_semaphore s)
  | Some (_, Acquired) | Some (_, Resumable _) => true
  | Some (_, Finished) | None => false
  end.

Definition ready (s : gather_state) : list nat :=
  filter (λ i, runnable s i = true) (seq 0 (length (g_tasks s))).

(** The task taken from the ready list [i0 :: rest] for a choice number. *)
Definition pick (choice i0 : nat) (rest : list nat) : nat :=
  default i0 ((i0 :: rest) !! (choice `mod` length (i0 :: rest))).

(** The event loop: at each turn it runs one of the ready tasks.  Which
    one is not fixed by [asyncio] (it depends on when the worker threads
    finish), so the choice is read from [schedule]; a task that is ready
    right after acquiring its slot may also wait for a later turn, which
    only adds interleavings. *)
Fixpoint event_loop (dest_dir : path) (total_files : nat)
    (schedule : list nat) (fuel : nat) (s : gather_state) : gather_state :=
  match fuel with
  | O => s
  | S fuel' =>
      match ready s with
      | [] => s
      | i0 :: rest =>
          let i := pick (default 0 (head schedule)) i0 rest in
          match move_with_progress dest_dir total_files i s with
          | Some s' => event_loop dest_dir total_files (tail schedule) fuel' s'
          | None => s
          end
      end
  end.

Definition gather_init (w : world) (files : list path) : gather_state :=
  GatherState w 10 0 ((λ file, (file, Queued)) <$> files).

(** [await asyncio.gather( *tasks )]: every task takes three turns. *)
Definition gather (dest_dir : path) (schedule : list nat) (w : world)
    (files : list path) : gather_state :=
  event_loop dest_dir (length files) schedule (3 * length files)
    (gather_init w files).

(** ** task1.py: [process_files] *)

(** The [defaultdict(int)] filled at lines 112 to 115. *)
Definition extension_counts (files : list path) : gmap string nat :=
  foldl (λ counts file,
           let ext := extension_key file in
           <[ext := S (default 0 (counts !! ext))]> counts)
        ∅ files.

(** The order of Python tuples [(ext, count)]. *)
Definition item_le (x y : string * nat) : Prop :=
  if decide (x.1 = y.1) then x.2 ≤ y.2 else String.le x.1 y.1.

#[global] Instance item_le_dec : RelDecision item_le.
Proof. intros x y. unfold item_le. destruct (decide (x.1 = y.1)); apply _. Defined.

(** [sorted(extension_counts.items())] *)
Definition sorted_items (counts : gmap string nat) : list (string * nat) :=
  merge_sort item_le (map_to_list counts).

Definition breakdown_lines (counts : gmap string nat) : list event :=
  (λ item, Log INFO (ExtensionLine item.1 item.2)) <$> sorted_items counts.

Definition process_files (source_dir dest_dir : path) (schedule : list nat)
    (w : world) : world :=
  let '(files, evs) := get_all_files (fs w) source_dir in
  let w := emit evs w in
  if decide (files = ∅) then emit [Log WARNING NoAccessibleFiles] w
  else
    let counts := extension_counts (elements files) in
    let total_files := size files in
    let s := gather dest_dir schedule w (elements files) in
    emit ([Log INFO (ProcessingCompleted total_files);
           Log INFO FilesProcessedByExtension] ++ breakdown_lines counts)
         (g_world s).

(** ** task1.py: [main] *)

(** The exceptions that are no [Exception]: neither [except] clause of
    [main] catches them.  On Ctrl-C [asyncio.run] ends the run by
    cancelling [main], which raises [CancelledError] at the [await] where
    [main] is suspended. *)
Inductive base_exception :=
| CancelledError
| SystemExit
| GeneratorExit.

(** How an awaited coroutine ends: it returns, or an exception leaves
    it.  [KeyboardInterrupt] is the interrupt raised while the code of
    the coroutine itself is running; [Raised] carries an [Exception];
    [RaisedBase] carries one of the other exceptions. *)
Inductive outcome :=
| Returned
| KeyboardInterrupt
| Raised (e : FS.exn)
| RaisedBase (b : base_exception).

Section Main.

(** [Path(arg).resolve()] *)
Variable resolve : string → path.

(** The coroutine awaited inside the [try] block. *)
Variable body : path → path → world → outcome * world.

(** Lines 157 to 180.  The two [except] clauses handle
    [KeyboardInterrupt] and [Exception] and let [main] return; any other
    exception passes them and leaves [main]; the [finally] clause logs
    the marker in every case. *)
Definition main_with (arg_source_dir arg_dest_dir : string) (w : world)
  : outcome * world :=
  let source_dir := resolve arg_source_dir in
  let dest_dir := resolve arg_dest_dir in
  if negb (FS.exists_ (fs w) source_dir) then
    (Returned, emit [Log ERROR (SourceDoesNotExist source_dir)] w)
  else if decide (source_dir = dest_dir) then
    (Returned, emit [Log ERROR SourceAndDestinationSame] w)
  else
    match create_directory dest_dir w with
    | (Some e, w1) => (Raised e, w1)
    | (None, w1) =>
        let '(o, w2) := body source_dir dest_dir w1 in
        let '(o3, w3) :=
          match o with
          | Returned => (Returned, w2)
          | KeyboardInterrupt => (Returned, emit [Log INFO ProcessInterrupted] w2)
          | Raised e => (Returned, emit [Log ERROR (ProcessFailed e)] w2)
          | RaisedBase b => (RaisedBase b, w2)
          end in
        (o3, emit [Log INFO ProcessFinished] w3)
    end.

End Main.

(** The run that nothing interrupts: [process_files] catches every
    [Exception] itself and so returns. *)
Definition main (resolve : string → path) (schedule : list nat)
    (arg_source_dir arg_dest_dir : string) (w : world) : outcome * world :=
  main_with resolve
    (λ source_dir dest_dir w,
       (Returned, process_files source_dir dest_dir schedule w))
    arg_source_dir arg_dest_dir w.

(** ** Vocabulary of the statements *)

(** The sequence of names of the collision rule: the name of the source,
    then [stem_1+suffix], [stem_2+suffix], ... *)
Definition candidate (source : path) (k : nat) : string :=
  match k with
  | O => Pathlib.name source
  | S _ => Pathlib.stem source +:+ "_" +:+ pretty k +:+ Pathlib.suffix source
  end.

(** Candidate [k] for [source] is occupied in [target_dir]. *)
Definition taken (fs : FS.node) (source target_dir : path) (k : nat) : Prop :=
  FS.exists_ fs (Pathlib.joinpath target_dir (candidate source k)) = true.

#[global] Instance taken_dec fs source target_dir k :
  Decision (taken fs source target_dir k).
Proof. unfold taken. apply _. Defined.

Definition protected (nm : string) : Prop := nm ∈ SYSTEM_DIRS.

Definition hidden (nm : string) : Prop := Str.startswith "." nm = true.

(** [p] lies inside the subtree rooted at a directory [d] of the tree
    walked from [root] (the root itself or a directory below it) whose
    name satisfies [P]. *)
Definition inside_subtree (P : string → Prop) (root p : path) : Prop :=
  ∃ d rest, p = d ++ rest ∧ rest ≠ [] ∧ root `prefix_of` d ∧
            P (Pathlib.name d).

(** The same for a directory strictly below the root. *)
Definition inside_subtree_below (P : string → Prop) (root p : path) : Prop :=
  ∃ d rest, p = d ++ rest ∧ rest ≠ [] ∧ root `prefix_of` d ∧ d ≠ root ∧
            P (Pathlib.name d).

(** A directory name the walker descends into. *)
Definition walkable (nm : string) : Prop :=
  (nm ∉ SYSTEM_DIRS) ∧ Str.startswith "." nm = false.

(** C4 as the specification states it. *)
Definition walker_excludes_protected_and_hidden : Prop :=
  ∀ (fs : FS.node) (root : path),
    (protected (Pathlib.name root) → (get_all_files fs root).1 = ∅) ∧
    ∀ p, p ∈ (get_all_files fs root).1 →
         ¬ inside_subtree protected root p ∧ ¬ inside_subtree hidden root p.

(** The turns a task still has to take. *)
Definition turns_left (ph : phase) : nat :=
  match ph with
  | Queued => 3
  | Acquired => 2
  | Resumable _ => 1
  | Finished => 0
  end.

Definition total_turns_left (s : gather_state) : nat :=
  sum_list_with (λ t, turns_left t.2) (g_tasks s).

(** What one turn of a task does to the semaphore: a queued task takes a
    slot and touches nothing else; a task that holds a slot keeps it while
    [makedirs] runs, and gives it back in the turn that performs the
    move, whatever [makedirs] and the move returned. *)
Definition slots_guard_moves (dest_dir : path) (total_files : nat)
    (s : gather_state) : Prop :=
  ∀ i s', move_with_progress dest_dir total_files i s = Some s' →
    ∃ file ph ph',
      g_tasks s !! i = Some (file, ph) ∧ g_tasks s' !! i = Some (file, ph') ∧
      match ph with
      | Queued =>
          ph' = Acquired ∧ g_world s' = g_world s ∧
          S (g_semaphore s') = g_semaphore s
      | Acquired =>
          (∃ r, ph' = Resumable r) ∧ g_semaphore s' = g_semaphore s
      | Resumable r =>
          ph' = Finished ∧ g_semaphore s' = S (g_semaphore s) ∧
          ∃ w2, g_world s' = w2 ∧
                (w2 = move_file_resume file dest_dir r (g_world s) ∨
                 w2 = emit [Log INFO (Progress (g_processed_files s') total_files)]
                        (move_file_resume file dest_dir r (g_world s)))
      | Finished => False
      end.

(** The semaphore value and the tasks that hold a slot add up to 10. *)
Definition slots_balanced (s : gather_state) : Prop :=
  g_semaphore s + in_flight s = 10.

(** The files a trace reports as moved. *)
Definition moved_files (tr : list event) : list path :=
  omap (λ ev, match ev with
              | Log INFO (SuccessfullyMoved src _) => Some src
              | _ => None
              end) tr.

(** The files of a list that carry the extension key [ext]. *)
Definition with_extension (ext : string) (files : list path) : list path :=
  filter (λ file, extension_key file = ext) files.

(** C1 as the specification states it: a count logged in the breakdown
    covers only files that were moved. *)
Definition breakdown_counts_only_moved_files : Prop :=
  ∀ (source_dir dest_dir : path) (schedule : list nat) (fs : FS.node)
    (ext : string) (n : nat),
    let tr := trace (process_files source_dir dest_dir schedule (World fs [])) in
    Log INFO (ExtensionLine ext n) ∈ tr →
    n ≤ length (with_extension ext (moved_files tr)).

(** C2 as the specification states it: every invocation logs the marker. *)
Definition finished_marker_always : Prop :=
  ∀ (resolve : string → path) (schedule : list nat)
    (arg_source_dir arg_dest_dir : string) (fs : FS.node),
    Log INFO ProcessFinished
      ∈ trace (main resolve schedule arg_source_dir arg_dest_dir (World fs [])).2.

(** ** Sample filesystems *)

(** [Path.resolve] for arguments that name a directory at the root. *)
Definition resolve_at_root (arg : string) : path := [arg].

(** One file to sort, and a destination whose [txt] directory is
    read-only. *)
Definition read_only_dest_fs : FS.node :=
  FS.Dir true true
    [("src", FS.Dir true true [("a.txt", FS.File true "A")]);
     ("out", FS.Dir true true [("txt", FS.Dir true false [])])].

(** A source tree with a hidden file, an unreadable file, a hidden and a
    protected directory and nested directories, next to an empty
    destination. *)
Definition sample_fs : FS.node :=
  FS.Dir true true
    [("src", FS.Dir true true
        [("a.txt", FS.File true "A");
         (".env", FS.File true "E");
         ("locked.bin", FS.File false "L");
         (".git", FS.Dir true true [("config", FS.File true "C")]);
         ("$Recycle.Bin", FS.Dir true true [("secret.dat", FS.File true "S")]);
         ("sub", FS.Dir true true
            [("photo.JPG", FS.File true "P");
             ("deep", FS.Dir true true
                [("README", FS.File true "R");
                 ("Windows", FS.Dir true true [("x.dll", FS.File true "X")])])])]);
     ("out", FS.Dir true true [])].

(** Twelve files to sort. *)
Definition twelve_files : list path :=
  (λ k, ["src"; "f" +:+ pretty k +:+ ".txt"]) <$> seq 0 12.

Definition twelve_files_fs : FS.node :=
  FS.Dir true true
    [("src", FS.Dir true true
               ((λ k, ("f" +:+ pretty k +:+ ".txt", FS.File true "")) <$> seq 0 12));
     ("out", FS.Dir true true [])].

(** A project whose [.git] directory is given as the source. *)
Definition hidden_root_fs : FS.node :=
  FS.Dir true true
    [("proj", FS.Dir true true
        [(".git", FS.Dir true true [("config", FS.File true "C")])])].

(** A directory that holds [a.txt], and one that holds [a_1.txt] as well. *)
Definition one_collision : FS.node :=
  FS.Dir true true
    [("dest", FS.Dir true true
        [("txt", FS.Dir true true [("a.txt", FS.File true "first")])])].

Definition two_collisions : FS.node :=
  FS.Dir true true
    [("dest", FS.Dir true true
        [("txt", FS.Dir true true
            [("a.txt", FS.File true "first");
             ("a_1.txt", FS.File true "second")])])].

Definition upper_case_collision : FS.node :=
  FS.Dir true true
    [("dest", FS.Dir true true
        [("txt", FS.Dir true true [("A.TXT", FS.File true "first")])])].

(** ** task2.py: the chunks and the counts *)

(** The list [chunks] of [parallel_map] (lines 23 and 24), for a positive
    [num_workers]. *)
Definition chunks (num_workers : nat) (text : string) : list string :=
  let chunk_size := (String.length text / num_workers) `max` 1 in
  (λ i, Str.slice i (i + chunk_size) text)
    <$> MapReduce.range_step (String.length text) chunk_size.

(** The strings of a list, joined. *)
Definition join (l : list string) : string := foldr String.append "" l.

(** The sum of the counts that [mapped_data] holds for [word]. *)
Definition total_count (word : string) (mapped_data : list (string * nat)) : nat :=
  sum_list_with (λ item, if decide (item.1 = word) then item.2 else 0)
    mapped_data.

(** Every character of [s] passes the test [P]. *)
Fixpoint all_chars (P : ascii → bool) (s : string) : bool :=
  match s with
  | EmptyString => true
  | String c s' => P c && all_chars P s'
  end.

(** The character is not changed by [str.lower]. *)
Definition is_lower_char (c : ascii) : bool :=
  bool_decide (Str.lower_char c = c).

(** The character is an ASCII code point.  On a [str] of ASCII code
    points [str.lower] maps [A] to [Z] to [a] to [z] and changes nothing
    else, as [Str.lower] does. *)
Definition is_ascii_char (c : ascii) : bool := nat_of_ascii c <? 128.

(** The event changes nothing in the filesystem. *)
Definition read_only_event (ev : event) : bool :=
  match ev with
  | SysMakedirs _ | SysMove _ _ => false
  | _ => true
  end.

(** If the event is a move, it takes one of [files] to a path directly
    inside the directory of its extension key under [dest_dir]. *)
Definition move_into (dest_dir : path) (files : list path) (ev : event) : Prop :=
  match ev with
  | SysMove src dst =>
      src ∈ files ∧ FS.parent dst = Pathlib.joinpath dest_dir (extension_key src)
  | _ => True
  end.

(** The sum of the counts of a dictionary. *)
Definition counted (counts : gmap string nat) : nat :=
  sum_list_with snd (map_to_list counts).

(** ** Reading a trace *)

(** The file whose relocation a log line settles: moved, refused, failed
    in the move, or failed before it. *)
Definition outcome_of (ev : event) : option path :=
  match ev with
  | Log _ (SuccessfullyMoved src _) | Log _ (NoPermissionToMove src)
  | Log _ (ErrorMovingFile src _) | Log _ (ErrorProcessingFile src _) => Some src
  | _ => None
  end.

Definition outcomes (tr : list event) : list path := omap outcome_of tr.

(** The [(processed, total)] pair of a progress line. *)
Definition progress_of (ev : event) : option (nat * nat) :=
  match ev with
  | Log INFO (Progress processed_files total_files) =>
      Some (processed_files, total_files)
  | _ => None
  end.

Definition progress_lines (tr : list event) : list (nat * nat) :=
  omap progress_of tr.

#[global] Instance phase_eq_dec : EqDecision phase.
Proof. solve_decision. Defined.

(** The files of the tasks that have left the [async with] block. *)
Definition finished_of (tasks : list (path * phase)) : list path :=
  (filter (λ t, t.2 = Finished) tasks).*1.

Definition finished_files (s : gather_state) : list path :=
  finished_of (g_tasks s).

(** What the gather has done so far, read from its state: the counter
    equals the number of finished tasks, the settled files are the files
    of the finished tasks, and one progress line stands for every ten
    finished tasks. *)
Definition accounted (total_files : nat) (w0 : world) (files : list path)
    (s : gather_state) : Prop :=
  (g_tasks s).*1 = files
  ∧ g_processed_files s = length (finished_files s)
  ∧ ∃ evs, trace (g_world s) = trace w0 ++ evs
           ∧ outcomes evs ≡ₚ finished_files s
           ∧ progress_lines evs
             = (λ k, (10 * S k, total_files)) <$> seq 0 (g_processed_files s / 10).

(** Every regular file of the tree [fs0] the gather started from is
    accounted for in the state [s]: a file that is no finished task's file
    is where it was; the file of a finished task is where it was, or it
    is at the destination that the log reports, a path that no unfinished
    task will move. *)
Definition content_safe (dest_dir : path) (fs0 : FS.node) (s : gather_state)
  : Prop :=
  ∀ q r d, FS.lookup q fs0 = Some (FS.File r d) →
    (q ∉ finished_files s →
       FS.lookup q (fs (g_world s)) = Some (FS.File r d))
    ∧ (q ∈ finished_files s →
         FS.lookup q (fs (g_world s)) = Some (FS.File r d)
         ∨ ∃ dst, Log INFO (SuccessfullyMoved q dst) ∈ trace (g_world s)
                  ∧ FS.parent dst = target_dir_of q dest_dir
                  ∧ FS.lookup dst (fs (g_world s)) = Some (FS.File r d)
                  ∧ ∀ ph, (dst, ph) ∈ g_tasks s → ph = Finished).

(** ** Well-formed trees *)

(** No directory lists a name twice, at any depth. *)
Fixpoint unique_names (nd : FS.node) : bool :=
  match nd with
  | FS.Dir _ _ es =>
      bool_decide (NoDup es.*1)
      && (fix all (es : list (string * FS.node)) : bool :=
            match es with
            | [] => true
            | (_, e) :: es' => unique_names e && all es'
            end) es
  | _ => true
  end.


(** The collision scenario: [a.txt] is to be moved next to another
    [a.txt]. *)
Definition collision_scenario_fs : FS.node :=
  FS.Dir true true
    [("in", FS.Dir true true [("a.txt", FS.File true "second")]);
     ("dest", FS.Dir true true
        [("txt", FS.Dir true true [("a.txt", FS.File true "first")])])].

(** ** Relocation *)








(** * Properties *)

(** ** Strings and pathlib *)

Section StringFacts.

Lemma str_app_nil (b : string) : "" +:+ b = b.
Proof. reflexivity. Qed.

Lemma str_app_cons (x : ascii) (a b : string) :
  String x a +:+ b = String x (a +:+ b).
Proof. reflexivity. Qed.

Lemma str_length_app (a b : string) :
  String.length (a +:+ b) = String.length a + String.length b.
Proof.
  induction a as [|c a IH]; [done|].
  rewrite str_app_cons. simpl. by rewrite IH.
Qed.

Lemma str_app_assoc (a b c : string) : (a +:+ b) +:+ c = a +:+ (b +:+ c).
Proof.
  induction a as [|x a IH]; [done|].
  rewrite !str_app_cons. by rewrite IH.
Qed.

Lemma str_app_inv_tail (a b c : string) : a +:+ c = b +:+ c → a = b.
Proof.
  revert b. induction a as [|x a IH]; intros [|y b] H.
  - done.
  - apply (f_equal String.length) in H.
    rewrite str_app_nil, str_app_cons in H. simpl in H.
    rewrite str_length_app in H. lia.
  - apply (f_equal String.length) in H.
    rewrite str_app_nil, str_app_cons in H. simpl in H.
    rewrite str_length_app in H. lia.
  - rewrite !str_app_cons in H. injection H as -> H. f_equal. by apply IH.
Qed.

Lemma slice_to_from (i : nat) (s : string) :
  Str.slice_to i s +:+ Str.slice_from i s = s.
Proof.
  revert s. induction i as [|i IH]; intros [|c s]; simpl; try done.
  by rewrite str_app_cons, IH.
Qed.

Lemma length_slice_from (i : nat) (s : string) :
  String.length (Str.slice_from i s) = String.length s - i.
Proof. revert s. induction i as [|i IH]; intros [|c s]; simpl; auto. Qed.

Lemma rfind_Some (c : ascii) (s : string) (i : nat) :
  Str.rfind c s = Some i →
  ∃ rest, Str.slice_from i s = String c rest.
Proof.
  revert i. induction s as [|a s IH]; intros i; simpl; [done|].
  destruct (Str.rfind c s) as [j|].
  - intros [= <-]. simpl. by apply IH.
  - destruct (decide (a = c)) as [->|]; [|done].
    intros [= <-]. by eexists.
Qed.

Lemma lower_char_idemp (c : ascii) :
  Str.lower_char (Str.lower_char c) = Str.lower_char c.
Proof. by destruct c as [[] [] [] [] [] [] [] []]. Qed.

Lemma lower_idemp (s : string) : Str.lower (Str.lower s) = Str.lower s.
Proof.
  induction s as [|c s IH]; simpl; [done|].
  by rewrite lower_char_idemp, IH.
Qed.

(** A name is its stem followed by its suffix. *)
Lemma stem_suffix (nm : string) :
  Pathlib.stem_of nm +:+ Pathlib.suffix_of nm = nm.
Proof.
  unfold Pathlib.stem_of, Pathlib.suffix_of.
  destruct (Pathlib.suffix_index nm).
  - apply slice_to_from.
  - clear. induction nm as [|c nm IH]; [done|].
    by rewrite str_app_cons, IH.
Qed.

(** A suffix is empty or a dot followed by at least one character. *)
Lemma suffix_shape (nm : string) :
  Pathlib.suffix_of nm = "" ∨
  ∃ e, e ≠ "" ∧ Pathlib.suffix_of nm = "." +:+ e.
Proof.
  unfold Pathlib.suffix_of, Pathlib.suffix_index.
  destruct (Str.rfind "." nm) as [i|] eqn:Hi; [|by left].
  destruct (0 <? i) eqn:H0; simpl; [|by left].
  destruct (i <? String.length nm - 1) eqn:H1; [|by left].
  right. apply Nat.ltb_lt in H1.
  destruct (rfind_Some _ _ _ Hi) as [rest Hrest].
  exists rest. split; [|done].
  intros ->. apply (f_equal String.length) in Hrest.
  rewrite length_slice_from in Hrest. simpl in Hrest. lia.
Qed.

End StringFacts.

(** C6.  The extension key of a path is the sentinel [no_extension] when
    the name has no suffix, and otherwise the lowercased suffix without its
    leading dot; lowercasing it again changes nothing.  [REPORT.PDF] is
    classified as [pdf] and [README] as [no_extension]. *)
Theorem extension_key_classifies (file : path) :
  ((Pathlib.suffix file = "" ∧ extension_key file = "no_extension") ∨
   (∃ e, e ≠ "" ∧ Pathlib.suffix file = "." +:+ e ∧
         Pathlib.name file = Pathlib.stem file +:+ "." +:+ e ∧
         extension_key file = Str.lower e))
  ∧ Str.lower (extension_key file) = extension_key file
  ∧ extension_key ["inbox"; "REPORT.PDF"] = "pdf"
  ∧ extension_key ["inbox"; "README"] = "no_extension".
Proof.
  split; [|split; [|done]].
  - unfold extension_key, Pathlib.suffix, Pathlib.stem.
    destruct (suffix_shape (Pathlib.name file)) as [H|(e & He & H)].
    + left. rewrite H. by rewrite decide_True.
    + right. exists e. rewrite H. repeat split; try done.
      by rewrite <- H, stem_suffix.
  - unfold extension_key. case_decide; [done|]. apply lower_idemp.
Qed.

(** ** Collision resolution *)

Section Collisions.

Lemma fs_lookup_app (p q : path) (nd : FS.node) :
  FS.lookup (p ++ q) nd = FS.lookup p nd ≫= FS.lookup q.
Proof.
  revert nd. induction p as [|n p IH]; intros nd; simpl; [done|].
  destruct nd as [| l w es |]; try done.
  destruct (FS.entry n es); [apply IH | done].
Qed.

Lemma entry_Some_listed (nm : string) (es : list (string * FS.node)) nd :
  FS.entry nm es = Some nd → nm ∈ es.*1.
Proof.
  induction es as [|[n e] es IH]; simpl; [done|].
  destruct (decide (n = nm)) as [->|]; [left | right; auto].
Qed.

(** Whatever exists directly below a directory is in its listing. *)
Lemma exists_listed (fs : FS.node) (dir : path) (nm : string) :
  FS.exists_ fs (Pathlib.joinpath dir nm) = true → nm ∈ FS.listing fs dir.
Proof.
  unfold FS.exists_, Pathlib.joinpath, FS.listing.
  rewrite bool_decide_eq_true, fs_lookup_app.
  destruct (FS.lookup dir fs) as [[| l w es |]|]; simpl;
    try (by intros [? [=]]).
  destruct (FS.entry nm es) eqn:He; [|by intros [? [=]]].
  intros _. by eapply entry_Some_listed.
Qed.

Lemma candidate_inj (source : path) : Inj (=) (=) (candidate source).
Proof.
  assert (Hne : ∀ k, candidate source 0 ≠ candidate source (S k)).
  { intros k H. unfold candidate in H.
    rewrite <- (stem_suffix (Pathlib.name source)) in H at 1.
    apply (f_equal String.length) in H.
    unfold Pathlib.stem, Pathlib.suffix in H.
    rewrite !str_length_app in H. simpl in H. lia. }
  intros [|j] [|k] H; [done | by apply Hne in H | symmetry in H; by apply Hne in H |].
  unfold candidate in H.
  apply (inj (String.app _)), (inj (String.app _)) in H.
  apply str_app_inv_tail in H. by apply (inj pretty) in H.
Qed.

Variables (fs : FS.node) (source target_dir : path).

Local Abbreviation taken := (taken fs source target_dir).

(** Some candidate is free, and the first free one comes no later than
    the length of the listing. *)
Lemma first_free_candidate :
  ∃ m, m ≤ length (FS.listing fs target_dir) ∧ ¬ taken m ∧
       ∀ j, j < m → taken j.
Proof.
  set (n := length (FS.listing fs target_dir)).
  destruct (list_find (λ k, ¬ taken k) (seq 0 (S n))) as [[i k]|] eqn:Hfind.
  - apply list_find_Some in Hfind as (Hik & Hfree & Hmin).
    apply lookup_seq in Hik as [Hk Hlt]. simpl in Hk. subst k.
    exists i. split; [lia|]. split; [done|].
    intros j Hj. destruct (decide (taken j)) as [|Hn]; [done|].
    exfalso. apply (Hmin j j); [|done|done].
    apply lookup_seq. split; [done | lia].
  - exfalso. apply list_find_None in Hfind.
    assert (Hsub : candidate source <$> seq 0 (S n) ⊆+ FS.listing fs target_dir).
    { apply NoDup_submseteq.
      - apply (@NoDup_fmap_2 _ _ _ (candidate_inj source)), NoDup_seq.
      - intros nm (k & -> & Hk)%list_elem_of_fmap.
        apply exists_listed.
        rewrite Forall_forall in Hfind. specialize (Hfind k Hk).
        by destruct (decide (taken k)). }
    apply submseteq_length in Hsub.
    rewrite length_fmap, length_seq in Hsub. subst n. lia.
Qed.

(** The loop, entered at candidate [k], walks to the first free one. *)
Lemma collision_loop_reaches (d : nat) :
  ∀ k fuel,
    d ≤ fuel →
    (∀ j, k ≤ j < k + d → taken j) →
    ¬ taken (k + d) →
    collision_loop fuel fs source target_dir (S k)
      (Pathlib.joinpath target_dir (candidate source k))
    = Some (Pathlib.joinpath target_dir (candidate source (k + d))).
Proof.
  induction d as [|d IH]; intros k fuel Hfuel Htaken Hfree.
  - rewrite Nat.add_0_r in *. unfold taken in Hfree.
    destruct fuel; simpl; by destruct (FS.exists_ _ _).
  - destruct fuel as [|fuel]; [lia|]. simpl.
    rewrite (Htaken k) by lia.
    rewrite <- Nat.add_succ_comm in *.
    apply IH; [lia | intros j Hj; apply Htaken; lia | done].
Qed.

Lemma resolve_destination_spec :
  ∃ k, resolve_destination fs source target_dir
         = Some (Pathlib.joinpath target_dir (candidate source k))
       ∧ ¬ taken k ∧ ∀ j, j < k → taken j.
Proof.
  destruct first_free_candidate as (m & Hm & Hfree & Htaken).
  exists m. split; [|done].
  unfold resolve_destination.
  apply (collision_loop_reaches m 0); [done | | done].
  intros j Hj. apply Htaken. lia.
Qed.

End Collisions.

(** C5.  Collision resolution always returns, and what it returns is the
    first path of the sequence [target_dir/name], [target_dir/stem_1.ext],
    [target_dir/stem_2.ext], ... at which nothing exists: the returned
    candidate is free and every earlier candidate is taken.  Next to
    [a.txt] it returns [a_1.txt], and next to both of them [a_2.txt]. *)
Theorem resolve_destination_first_free
    (fs : FS.node) (source target_dir : path) :
  (∃ k, resolve_destination fs source target_dir
          = Some (Pathlib.joinpath target_dir (candidate source k))
        ∧ FS.exists_ fs (Pathlib.joinpath target_dir (candidate source k)) = false
        ∧ Forall (λ j, FS.exists_ fs
                         (Pathlib.joinpath target_dir (candidate source j)) = true)
                 (seq 0 k))
  ∧ candidate ["in"; "a.txt"] <$> [0; 1; 2; 3] = ["a.txt"; "a_1.txt"; "a_2.txt"; "a_3.txt"]
  ∧ resolve_destination one_collision ["in"; "a.txt"] ["dest"; "txt"]
      = Some ["dest"; "txt"; "a_1.txt"]
  ∧ resolve_destination two_collisions ["in"; "a.txt"] ["dest"; "txt"]
      = Some ["dest"; "txt"; "a_2.txt"].
Proof.
  split; [|by vm_compute].
  destruct (resolve_destination_spec fs source target_dir) as (k & Hk & Hfree & Htaken).
  exists k. split; [done|]. split.
  - unfold taken in Hfree. by destruct (FS.exists_ _ _).
  - apply Forall_forall. intros j Hj%elem_of_seq. apply Htaken. lia.
Qed.

(** C10.  The returned name is either the source's own name or
    [stem_counter+suffix] built from the stem and the suffix of the
    source, with a counter of at least 1: collisions never stack counters
    ([a.txt] next to [a.txt] and [a_1.txt] becomes [a_2.txt], not
    [a_1_1.txt]), and the name ends with the source's suffix in its
    original case ([A.TXT] becomes [A_1.TXT]). *)
Theorem collision_name_from_source
    (fs : FS.node) (source target_dir : path) :
  (∃ destination,
      resolve_destination fs source target_dir = Some destination
      ∧ (destination = Pathlib.joinpath target_dir (Pathlib.name source)
         ∨ ∃ counter, 1 ≤ counter ∧
             destination = Pathlib.joinpath target_dir
               (Pathlib.stem source +:+ "_" +:+ pretty counter
                  +:+ Pathlib.suffix source))
      ∧ ∃ front, Pathlib.name destination = front +:+ Pathlib.suffix source)
  ∧ resolve_destination two_collisions ["in"; "a.txt"] ["dest"; "txt"]
      = Some ["dest"; "txt"; "a_2.txt"]
  ∧ resolve_destination two_collisions ["in"; "a.txt"] ["dest"; "txt"]
      ≠ Some ["dest"; "txt"; "a_1_1.txt"]
  ∧ resolve_destination upper_case_collision ["in"; "A.TXT"] ["dest"; "txt"]
      = Some ["dest"; "txt"; "A_1.TXT"].
Proof.
  split; [|by vm_compute].
  destruct (resolve_destination_spec fs source target_dir) as (k & Hk & _).
  eexists. split; [done|].
  unfold Pathlib.name at 2, Pathlib.joinpath. rewrite last_snoc. simpl.
  destruct k as [|k]; simpl.
  - split; [by left|].
    exists (Pathlib.stem source). symmetry. apply stem_suffix.
  - split.
    + right. exists (S k). split; [lia | done].
    + exists (Pathlib.stem source +:+ "_" +:+ pretty (S k)).
      by rewrite !str_app_assoc.
Qed.

(** ** The directory walker *)

Section Walker.

Lemma node_nested_ind (P : FS.node → Prop) :
  (∀ r d, P (FS.File r d)) →
  P FS.Special →
  (∀ l w es, Forall (λ ne, P ne.2) es → P (FS.Dir l w es)) →
  ∀ nd, P nd.
Proof.
  intros HF HS HD. fix IH 1.
  intros [r d | l w es |]; [apply HF | apply HD | apply HS].
  induction es as [|[n e] es IHes]; constructor; [apply IH | apply IHes].
Qed.

(** A path found by the loop was found at one of the entries. *)
Lemma scan_entries_elem recurse source_dir es p :
  (p ∈ (scan_entries recurse source_dir es).1) ↔
  ∃ nm e, (nm, e) ∈ es ∧ p ∈ (visit_entry recurse source_dir nm e).1.
Proof.
  induction es as [|[n e] es IH]; simpl.
  - split; [set_solver | intros (? & ? & []%elem_of_nil & _)].
  - rewrite elem_of_union, IH. split.
    + intros [H | (nm' & e' & Hin & H)].
      * exists n, e. split; [left | done].
      * exists nm', e'. split; [by right | done].
    + intros (nm' & e' & Hin & H).
      apply elem_of_cons in Hin as [[= -> ->] | Hin]; [by left|].
      right. by exists nm', e'.
Qed.

(** Every collected path is the walked directory, followed by
    directories that are neither protected nor hidden, followed by a
    file name. *)
Lemma get_all_files_at_sound (nd : FS.node) :
  ∀ source_dir p,
    p ∈ (get_all_files_at source_dir nd).1 →
    (Pathlib.name source_dir ∉ SYSTEM_DIRS) ∧
    ∃ dirs f, p = source_dir ++ dirs ++ [f] ∧ Forall walkable dirs.
Proof.
  induction nd as [r d | | l w es IH] using node_nested_ind;
    intros source_dir p; simpl;
    destruct (decide (Pathlib.name source_dir ∈ SYSTEM_DIRS)) as [|Hroot];
    simpl; try set_solver.
  destruct l; simpl; [|set_solver].
  intros (nm & e & Hin & Hp)%scan_entries_elem. split; [done|].
  unfold visit_entry in Hp.
  destruct (FS.is_dir e && bool_decide (nm ∈ SYSTEM_DIRS)) eqn:Hsys;
    [set_solver|].
  destruct (FS.is_file e) eqn:Hfile.
  - destruct e as [[] ? | |]; simpl in Hp; try set_solver.
    apply elem_of_singleton in Hp as ->.
    exists [], nm. by split.
  - destruct (FS.is_dir e) eqn:Hdir; simpl in *; [|set_solver].
    destruct (Str.startswith "." nm) eqn:Hhid; simpl in Hp; [set_solver|].
    rewrite Forall_forall in IH.
    apply (IH _ Hin) in Hp as (_ & dirs & f & -> & Hdirs).
    exists (nm :: dirs), f. split.
    + unfold Pathlib.joinpath. by rewrite <- !app_assoc.
    + constructor; [|done]. split; [|done].
      by apply bool_decide_eq_false in Hsys.
Qed.

Lemma get_all_files_sound fs source_dir p :
  p ∈ (get_all_files fs source_dir).1 →
  (Pathlib.name source_dir ∉ SYSTEM_DIRS) ∧
  ∃ dirs f, p = source_dir ++ dirs ++ [f] ∧ Forall walkable dirs.
Proof.
  unfold get_all_files. destruct (FS.lookup source_dir fs).
  - apply get_all_files_at_sound.
  - case_decide; set_solver.
Qed.

(** A directory of the walked tree above a collected path is the root
    or one of the directories the walker descended into. *)
Lemma directory_above (root dirs : path) (f : string) (d rest : path) :
  root ++ dirs ++ [f] = d ++ rest → rest ≠ [] → root `prefix_of` d →
  d = root ∨ Pathlib.name d ∈ dirs.
Proof.
  intros Heq Hrest [d' ->].
  rewrite <- app_assoc in Heq. apply app_inv_head in Heq.
  destruct (decide (d' = [])) as [->|Hd']; [left; by rewrite app_nil_r|].
  right.
  destruct (exists_last Hrest) as (rest' & x & ->).
  rewrite app_assoc in Heq. apply app_inj_tail in Heq as [-> _].
  destruct (exists_last Hd') as (d'' & y & ->).
  unfold Pathlib.name. rewrite app_assoc, last_snoc. simpl.
  apply elem_of_app. left. apply elem_of_app. right. by left.
Qed.

End Walker.

(** C4, counterexample.  A hidden directory given as the source is
    walked: with [proj/.git] as the root, [proj/.git/config] is collected,
    and it lies inside the subtree rooted at the directory [.git]. *)
Lemma hidden_root_is_walked : ¬ walker_excludes_protected_and_hidden.
Proof.
  intros H.
  destruct (H hidden_root_fs ["proj"; ".git"]) as [_ Hp].
  destruct (Hp ["proj"; ".git"; "config"]) as [_ Hhidden].
  - compute_done.
  - apply Hhidden. exists ["proj"; ".git"], ["config"].
    repeat split; done.
Qed.

(** C4, amended.  If the name of the root is in the protected set the
    walker returns the empty set.  Otherwise no returned path lies inside
    a subtree rooted at a directory with a protected name (the root or any
    directory below it, at any depth), and none lies inside a subtree
    rooted at a directory below the root whose name starts with ['.'].
    The name of the root itself is not tested for the leading ['.']. *)
Theorem walker_prunes_below_root (fs : FS.node) (root : path) :
  (protected (Pathlib.name root) → (get_all_files fs root).1 = ∅) ∧
  ∀ p, p ∈ (get_all_files fs root).1 →
       ¬ inside_subtree protected root p ∧
       ¬ inside_subtree_below hidden root p.
Proof.
  split.
  - intros Hroot. apply set_eq. intros p. split; [|set_solver].
    intros [Hn _]%get_all_files_sound. done.
  - intros p (Hroot & dirs & f & -> & Hdirs)%get_all_files_sound.
    rewrite Forall_forall in Hdirs. split.
    + intros (d & rest & Heq & Hrest & Hpre & Hprot).
      destruct (directory_above _ _ _ _ _ Heq Hrest Hpre) as [-> | Hin];
        [done|].
      by destruct (Hdirs _ Hin).
    + intros (d & rest & Heq & Hrest & Hpre & Hne & Hhid).
      destruct (directory_above _ _ _ _ _ Heq Hrest Hpre) as [-> | Hin];
        [done|].
      destruct (Hdirs _ Hin) as [_ Hvis]. unfold hidden in Hhid. congruence.
Qed.

(** The protected and the hidden directory of the sample tree contribute
    nothing. *)
Lemma walker_prunes_below_root_witness :
  (get_all_files sample_fs ["src"; "$Recycle.Bin"]).1 = ∅ ∧
  ¬ inside_subtree protected ["src"] ["src"; "sub"; "deep"; "README"] ∧
  ¬ inside_subtree_below hidden ["src"] ["src"; "sub"; "deep"; "README"].
Proof.
  split.
  - apply (walker_prunes_below_root sample_fs ["src"; "$Recycle.Bin"]).
    compute_done.
  - apply (walker_prunes_below_root sample_fs ["src"]).
    compute_done.
Defined.

(** ** The bounded gather *)

Section Gather.

Variables (dest_dir : path) (total_files : nat).

Local Abbreviation step := (move_with_progress dest_dir total_files).
Local Abbreviation loop := (event_loop dest_dir total_files).

Lemma phase_update (l : list (path * phase)) i x y :
  l !! i = Some x →
  ∃ l1 l2, l = l1 ++ x :: l2 ∧ <[i:=y]> l = l1 ++ y :: l2.
Proof.
  intros Hi. exists (take i l), (drop (S i) l). split.
  - symmetry. by apply take_drop_middle.
  - apply insert_take_drop. by eapply lookup_lt_Some.
Qed.

Lemma in_flight_middle w v n l1 file ph l2 :
  in_flight (GatherState w v n (l1 ++ (file, ph) :: l2))
  = in_flight (GatherState w v n l1)
    + (if holds_slot ph then 1 else 0)
    + in_flight (GatherState w v n l2).
Proof.
  unfold in_flight. simpl.
  rewrite filter_app, filter_cons, length_app. simpl.
  destruct (holds_slot ph); simpl; lia.
Qed.

Lemma turns_left_middle w v n l1 file ph l2 :
  total_turns_left (GatherState w v n (l1 ++ (file, ph) :: l2))
  = total_turns_left (GatherState w v n l1) + turns_left ph
    + total_turns_left (GatherState w v n l2).
Proof.
  unfold total_turns_left. simpl.
  rewrite sum_list_with_app. simpl. lia.
Qed.

(** A turn keeps the balance and uses up one of the remaining turns. *)
Lemma turn_balanced s i s' :
  step i s = Some s' →
  slots_balanced s →
  slots_balanced s' ∧ S (total_turns_left s') = total_turns_left s.
Proof.
  unfold move_with_progress, slots_balanced, set_phase.
  destruct s as [w v n tasks]. simpl.
  destruct (tasks !! i) as [[file ph]|] eqn:Hi; [|done].
  destruct ph as [| | r |].
  - destruct v as [|v]; [done|]. intros [= <-].
    destruct (phase_update _ _ _ (file, Acquired) Hi) as (l1 & l2 & -> & ->).
    rewrite !in_flight_middle, !turns_left_middle. simpl.
    unfold in_flight, total_turns_left. simpl. lia.
  - destruct (move_file_begin file dest_dir w) as [r w1]. intros [= <-].
    destruct (phase_update _ _ _ (file, Resumable r) Hi) as (l1 & l2 & -> & ->).
    rewrite !in_flight_middle, !turns_left_middle. simpl.
    unfold in_flight, total_turns_left. simpl. lia.
  - intros [= <-].
    destruct (phase_update _ _ _ (file, Finished) Hi) as (l1 & l2 & -> & ->).
    rewrite !in_flight_middle, !turns_left_middle. simpl.
    unfold in_flight, total_turns_left. simpl. lia.
  - done.
Qed.

Lemma runnable_step s i : runnable s i = true → is_Some (step i s).
Proof.
  unfold runnable, move_with_progress.
  destruct (g_tasks s !! i) as [[file [| | r |]]|]; intros H;
    try discriminate H.
  - apply bool_decide_eq_true in H. destruct (g_semaphore s); [lia | eauto].
  - destruct (move_file_begin _ _ _). eauto.
  - eauto.
Qed.

Lemma runnable_ready s i file ph :
  g_tasks s !! i = Some (file, ph) → runnable s i = true → i ∈ ready s.
Proof.
  intros Hi Hrun. unfold ready. apply list_elem_of_filter. split; [done|].
  apply elem_of_seq. apply lookup_lt_Some in Hi. lia.
Qed.

(** No deadlock: while a task has turns left, some task can run. *)
Lemma ready_nonempty s :
  slots_balanced s → 0 < total_turns_left s → ready s ≠ [].
Proof.
  unfold slots_balanced. intros Hbal Hleft Hready.
  assert (Hnone : ∀ i file ph,
             g_tasks s !! i = Some (file, ph) → runnable s i = false).
  { intros i file ph Hi. destruct (runnable s i) eqn:Hrun; [|done].
    pose proof (runnable_ready _ _ _ _ Hi Hrun) as Hin.
    rewrite Hready in Hin. by apply elem_of_nil in Hin. }
  assert (Hfl : in_flight s = 0).
  { unfold in_flight.
    destruct (filter _ (g_tasks s)) as [|[file ph] l] eqn:Hf; [done|].
    assert (Hin : (file, ph) ∈ filter (λ t, holds_slot t.2 = true) (g_tasks s))
      by (rewrite Hf; left).
    apply list_elem_of_filter in Hin as [Hslot Hin]. simpl in Hslot.
    apply list_elem_of_lookup in Hin as [i Hi].
    specialize (Hnone _ _ _ Hi). unfold runnable in Hnone.
    rewrite Hi in Hnone. by destruct ph. }
  assert (Hdone : ∀ t, t ∈ g_tasks s → turns_left t.2 = 0).
  { intros [file ph] Hin. apply list_elem_of_lookup in Hin as [i Hi].
    specialize (Hnone _ _ _ Hi). unfold runnable in Hnone.
    rewrite Hi in Hnone. destruct ph; try done.
    apply bool_decide_eq_false in Hnone. lia. }
  assert (Hzero : ∀ l : list (path * phase),
             (∀ t, t ∈ l → turns_left t.2 = 0) →
             sum_list_with (λ t, turns_left t.2) l = 0).
  { induction l as [|t l IH]; intros H; simpl; [done|].
    rewrite (H t) by left. apply IH. intros t' Hin. apply H. by right. }
  unfold total_turns_left in Hleft. rewrite (Hzero _ Hdone) in Hleft. lia.
Qed.

Lemma picked_ready s i0 rest choice :
  ready s = i0 :: rest → runnable s (pick choice i0 rest) = true.
Proof.
  intros Hready. unfold pick.
  set (k := choice `mod` length (i0 :: rest)).
  assert (Hin : default i0 ((i0 :: rest) !! k) ∈ ready s).
  { rewrite Hready. destruct ((i0 :: rest) !! k) as [i|] eqn:Hk; simpl.
    - by eapply list_elem_of_lookup_2.
    - left. }
  unfold ready in Hin. by apply list_elem_of_filter in Hin as [? _].
Qed.

Lemma event_loop_turn schedule fuel s :
  loop schedule (S fuel) s =
  match ready s with
  | [] => s
  | i0 :: rest =>
      match step (pick (default 0 (head schedule)) i0 rest) s with
      | Some s' => loop (tail schedule) fuel s'
      | None => s
      end
  end.
Proof. reflexivity. Qed.

(** The balance holds at every instant of every run of the loop. *)
Lemma event_loop_balanced fuel :
  ∀ schedule s, slots_balanced s → slots_balanced (loop schedule fuel s).
Proof.
  induction fuel as [|fuel IH]; intros schedule s Hbal; [done|].
  rewrite event_loop_turn.
  destruct (ready s) as [|i0 rest] eqn:Hready; [done|].
  destruct (step _ s) as [s'|] eqn:Hstep; [|done].
  apply IH. by eapply turn_balanced.
Qed.

(** With a turn of fuel for each remaining turn, the loop runs every
    task to its end. *)
Lemma event_loop_completes fuel :
  ∀ schedule s,
    slots_balanced s → total_turns_left s ≤ fuel →
    total_turns_left (loop schedule fuel s) = 0.
Proof.
  induction fuel as [|fuel IH]; intros schedule s Hbal Hfuel;
    [simpl; lia|].
  rewrite event_loop_turn.
  destruct (ready s) as [|i0 rest] eqn:Hready.
  - destruct (decide (0 < total_turns_left s)) as [Hpos|]; [|lia].
    by destruct (ready_nonempty s Hbal Hpos).
  - pose proof (picked_ready s i0 rest (default 0 (head schedule)) Hready)
      as Hrun.
    apply runnable_step in Hrun as [s' Hstep]. rewrite Hstep.
    destruct (turn_balanced _ _ _ Hstep Hbal) as [Hbal' Hleft].
    apply IH; [done | lia].
Qed.

Lemma no_turns_left_finished s :
  total_turns_left s = 0 →
  Forall (λ t, t.2 = Finished) (g_tasks s) ∧ in_flight s = 0.
Proof.
  unfold total_turns_left, in_flight.
  induction (g_tasks s) as [|[file ph] l IH]; simpl; intros H; [done|].
  destruct ph; simpl in H; try lia.
  destruct (IH H) as [Hall Hfl]. by split; [constructor|].
Qed.

Lemma turn_guarded s : slots_guard_moves dest_dir total_files s.
Proof.
  intros i s'. unfold move_with_progress, set_phase.
  destruct (g_tasks s !! i) as [[file ph]|] eqn:Hi; [|done].
  pose proof (lookup_lt_Some _ _ _ Hi) as Hlt.
  destruct ph as [| | r |]; [| | |done].
  - destruct (g_semaphore s) as [|v] eqn:Hv; [done|]. intros [= <-].
    exists file, Queued, Acquired. simpl.
    by rewrite list_lookup_insert_eq.
  - destruct (move_file_begin file dest_dir (g_world s)) as [r w1].
    intros [= <-]. exists file, Acquired, (Resumable r). simpl.
    rewrite list_lookup_insert_eq by done. eauto.
  - intros [= <-]. exists file, (Resumable r), Finished. simpl.
    rewrite list_lookup_insert_eq by done.
    repeat split; try done. eexists. split; [done|].
    case_decide; [by right | by left].
Qed.

End Gather.

Lemma gather_init_balanced w files :
  slots_balanced (gather_init w files) ∧
  total_turns_left (gather_init w files) = 3 * length files.
Proof.
  unfold slots_balanced, in_flight, total_turns_left, gather_init.
  cbn [g_semaphore g_tasks].
  induction files as [|file files [IH1 IH2]]; [done|].
  rewrite fmap_cons, filter_cons_False by done.
  split; [done|]. cbn [sum_list_with length]. rewrite IH2. simpl. lia.
Qed.

(** The bound is reached: of twelve queued tasks, ten can hold a slot at
    the same time, and the other two cannot run before a slot is freed. *)
Example ten_tasks_in_flight :
  let s := event_loop ["out"] 12 (seq 0 10) 10
             (gather_init (World twelve_files_fs []) twelve_files) in
  in_flight s = 10 ∧ g_semaphore s = 0 ∧ ready s = seq 0 10.
Proof. by vm_compute. Qed.

(** C8.  At every instant of every run of the gather (whatever the
    schedule, after any number of turns) at most 10 tasks are between
    slot acquisition and slot release, and the free slots and the tasks
    in flight add up to 10.  A task performs [makedirs] and the move only
    while it holds a slot, and the turn that performs the move gives the
    slot back whatever the outcome; when the gather ends every task has
    finished and all 10 slots are free. *)
Theorem at_most_ten_in_flight
    (w : world) (dest_dir : path) (files : list path)
    (schedule : list nat) (fuel : nat) :
  let s := event_loop dest_dir (length files) schedule fuel
             (gather_init w files) in
  let final := gather dest_dir schedule w files in
  in_flight s ≤ 10
  ∧ g_semaphore s + in_flight s = 10
  ∧ slots_guard_moves dest_dir (length files) s
  ∧ Forall (λ t, t.2 = Finished) (g_tasks final)
  ∧ g_semaphore final = 10.
Proof.
  intros s final.
  destruct (gather_init_balanced w files) as [Hbal Hturns].
  pose proof (event_loop_balanced dest_dir (length files) fuel schedule _ Hbal)
    as Hs.
  fold s in Hs. unfold slots_balanced in Hs.
  split; [lia|]. split; [done|]. split; [apply turn_guarded|].
  assert (Hfinal : total_turns_left final = 0).
  { apply event_loop_completes; [done | lia]. }
  apply no_turns_left_finished in Hfinal as [Hall Hfl].
  split; [done|].
  pose proof (event_loop_balanced dest_dir (length files) (3 * length files)
                schedule _ Hbal) as Hf.
  fold (gather dest_dir schedule w files) in Hf. fold final in Hf.
  unfold slots_balanced in Hf. lia.
Qed.

(** ** The summary of [process_files] *)

Section Summary.

Lemma extension_counts_step (acc : gmap string nat) (file : path) (ext : string) :
  <[extension_key file := S (default 0 (acc !! extension_key file))]> acc !! ext
  = if decide (extension_key file = ext)
    then Some (S (default 0 (acc !! ext))) else acc !! ext.
Proof.
  rewrite lookup_insert. by destruct (decide (extension_key file = ext)) as [->|].
Qed.

Lemma extension_counts_from (files : list path) (ext : string) :
  ∀ acc : gmap string nat,
    foldl (λ counts file,
             let ext := extension_key file in
             <[ext := S (default 0 (counts !! ext))]> counts) acc files !! ext
    = match length (with_extension ext files) with
      | O => acc !! ext
      | S k => Some (S k + default 0 (acc !! ext))
      end.
Proof.
  unfold with_extension.
  induction files as [|file files IH]; intros acc; [done|].
  cbn [foldl]. rewrite IH. cbv zeta. rewrite extension_counts_step.
  rewrite filter_cons.
  destruct (decide (extension_key file = ext)) as [Heq|Hne]; simpl.
  - destruct (length (filter _ files)); simpl; f_equal; lia.
  - done.
Qed.

(** The dictionary maps a key to the number of files that carry it. *)
Lemma extension_counts_lookup (files : list path) (ext : string) (n : nat) :
  extension_counts files !! ext = Some n ↔
  0 < n ∧ n = length (with_extension ext files).
Proof.
  unfold extension_counts. rewrite extension_counts_from, lookup_empty.
  destruct (length (with_extension ext files)); simpl.
  - split; [done | lia].
  - split; [intros [= <-]; lia | intros [_ ->]; f_equal; lia].
Qed.

Lemma breakdown_line_elem (counts : gmap string nat) (ext : string) (n : nat) :
  Log INFO (ExtensionLine ext n) ∈ breakdown_lines counts ↔
  counts !! ext = Some n.
Proof.
  unfold breakdown_lines, sorted_items.
  rewrite list_elem_of_fmap. split.
  - intros ([ext' n'] & [= -> ->] & Hin).
    rewrite merge_sort_Permutation in Hin.
    by apply elem_of_map_to_list in Hin.
  - intros Hin. exists (ext, n). split; [done|].
    rewrite merge_sort_Permutation. by apply elem_of_map_to_list.
Qed.

(** Every part of a task only adds events to the trace. *)
Lemma makedirs_call_extends p w :
  ∃ evs, trace (makedirs_call p w).2 = trace w ++ evs.
Proof. unfold makedirs_call. destruct (FS.makedirs p (fs w)); simpl; eauto. Qed.

Lemma move_file_resume_extends source dest_dir r w :
  ∃ evs, trace (move_file_resume source dest_dir r w) = trace w ++ evs.
Proof.
  unfold move_file_resume, create_directory_resume.
  destruct r as [e|]; simpl.
  - rewrite <- app_assoc. eauto.
  - destruct (resolve_destination _ _ _); [|exists []; by rewrite app_nil_r].
    destruct (FS.shutil_move _ _ _) as [[[]|] fs']; simpl; eauto.
Qed.

Lemma turn_extends dest_dir total i s s' :
  move_with_progress dest_dir total i s = Some s' →
  ∃ evs, trace (g_world s') = trace (g_world s) ++ evs.
Proof.
  unfold move_with_progress.
  destruct (g_tasks s !! i) as [[file [| | r |]]|]; try done.
  - destruct (g_semaphore s); [done|]. intros [= <-]. simpl.
    exists []. by rewrite app_nil_r.
  - unfold move_file_begin.
    destruct (makedirs_call_extends (target_dir_of file dest_dir) (g_world s))
      as [evs Hevs].
    destruct (makedirs_call _ _) as [r w1]. intros [= <-]. simpl in *. eauto.
  - intros [= <-]. simpl.
    destruct (move_file_resume_extends file dest_dir r (g_world s)) as [evs Hevs].
    case_decide; simpl; rewrite Hevs; [rewrite <- app_assoc|]; eauto.
Qed.

Lemma event_loop_extends dest_dir total fuel :
  ∀ schedule s,
    ∃ evs, trace (g_world (event_loop dest_dir total schedule fuel s))
           = trace (g_world s) ++ evs.
Proof.
  induction fuel as [|fuel IH]; intros schedule s.
  - exists []. by rewrite app_nil_r.
  - rewrite event_loop_turn.
    destruct (ready s) as [|i0 rest]; [exists []; by rewrite app_nil_r|].
    destruct (move_with_progress _ _ _ s) as [s'|] eqn:Hstep;
      [|exists []; by rewrite app_nil_r].
    destruct (turn_extends _ _ _ _ _ Hstep) as [evs1 H1].
    destruct (IH (tail schedule) s') as [evs2 H2].
    exists (evs1 ++ evs2). by rewrite H2, H1, app_assoc.
Qed.

End Summary.

(** C1, counterexample.  With one file [a.txt] and a read-only
    [out/txt], the move is refused and the file stays where it was, yet
    the summary reports one [txt] file. *)
Lemma unmoved_file_is_counted : ¬ breakdown_counts_only_moved_files.
Proof.
  intros H.
  specialize (H ["src"] ["out"] [] read_only_dest_fs "txt" 1).
  assert (Hnot : ¬ 1 ≤ 0) by lia. apply Hnot.
  apply H. compute_done.
Qed.

(** C1, amended.  When the walker found files, [process_files] ends its
    log with the total and one line for each extension key, and the count
    on a line is the number of discovered files that carry the key,
    whether or not they were moved: the counts are taken from the
    discovered set, before the first move. *)
Theorem breakdown_counts_discovered_files
    (source_dir dest_dir : path) (schedule : list nat) (w : world) :
  let files := (get_all_files (fs w) source_dir).1 in
  files ≠ ∅ →
  (∃ during,
      trace (process_files source_dir dest_dir schedule w)
      = trace w ++ (get_all_files (fs w) source_dir).2 ++ during
        ++ [Log INFO (ProcessingCompleted (size files));
            Log INFO FilesProcessedByExtension]
        ++ breakdown_lines (extension_counts (elements files)))
  ∧ ∀ ext n,
      Log INFO (ExtensionLine ext n)
        ∈ breakdown_lines (extension_counts (elements files))
      ↔ 0 < n ∧ n = length (with_extension ext (elements files)).
Proof.
  intros files Hfiles. split.
  - unfold process_files. subst files.
    destruct (get_all_files (fs w) source_dir) as [files evs].
    cbn [fst snd] in *. rewrite decide_False by done. unfold gather.
    destruct (event_loop_extends dest_dir (length (elements files))
                (3 * length (elements files)) schedule
                (gather_init (emit evs w) (elements files))) as [during H].
    exists during. unfold emit at 1. cbn [trace fs]. rewrite H.
    cbn [gather_init g_world emit trace]. by rewrite <- !app_assoc.
  - intros ext n. by rewrite breakdown_line_elem, extension_counts_lookup.
Qed.

(** On the filesystem of the counterexample the summary still says one
    [txt] file. *)
Lemma breakdown_counts_discovered_files_witness :
  Log INFO (ExtensionLine "txt" 1)
    ∈ breakdown_lines
        (extension_counts (elements (get_all_files read_only_dest_fs ["src"]).1)).
Proof.
  apply (proj2 (breakdown_counts_discovered_files ["src"] ["out"] []
                  (World read_only_dest_fs []) ltac:(compute_done)) "txt" 1).
  split; [lia | reflexivity].
Defined.

(** ** The orchestrator *)

(** C7.  When the source does not exist, or the source and the
    destination resolve to the same path, [main] returns after logging one
    ERROR line that names the failed check: the filesystem is unchanged
    and no system call is made, so nothing is scanned, opened, created or
    moved. *)
Theorem preflight_failure_does_nothing
    (resolve : string → path) (schedule : list nat)
    (arg_source_dir arg_dest_dir : string) (w : world) :
  FS.lookup (resolve arg_source_dir) (fs w) = None
  ∨ resolve arg_source_dir = resolve arg_dest_dir →
  ∃ msg,
    main resolve schedule arg_source_dir arg_dest_dir w
    = (Returned, World (fs w) (trace w ++ [Log ERROR msg]))
    ∧ (msg = SourceDoesNotExist (resolve arg_source_dir)
       ∨ msg = SourceAndDestinationSame).
Proof.
  intros Hfail. unfold main, main_with, FS.exists_.
  destruct (FS.lookup (resolve arg_source_dir) (fs w)) as [nd|] eqn:Hsrc.
  - destruct Hfail as [|Hsame]; [done|].
    rewrite bool_decide_eq_true_2 by eauto. simpl.
    rewrite decide_True by done. eauto.
  - rewrite bool_decide_eq_false_2 by (by intros [? ?]). simpl. eauto.
Qed.

(** A source that does not exist, and a source given as its own
    destination. *)
Lemma preflight_failure_does_nothing_witness :
  (∃ msg,
      main resolve_at_root [] "nowhere" "out" (World sample_fs [])
      = (Returned, World sample_fs [Log ERROR msg])
      ∧ (msg = SourceDoesNotExist ["nowhere"] ∨ msg = SourceAndDestinationSame))
  ∧ (∃ msg,
      main resolve_at_root [] "src" "src" (World sample_fs [])
      = (Returned, World sample_fs [Log ERROR msg])
      ∧ (msg = SourceDoesNotExist ["src"] ∨ msg = SourceAndDestinationSame)).
Proof.
  split.
  - apply (preflight_failure_does_nothing resolve_at_root [] "nowhere" "out"
             (World sample_fs [])).
    left. reflexivity.
  - apply (preflight_failure_does_nothing resolve_at_root [] "src" "src"
             (World sample_fs [])).
    right. reflexivity.
Defined.

(** C2, counterexample.  For a source that does not exist [main] logs the
    fatal error and returns before it reaches the [try] block: the marker
    is not logged. *)
Lemma no_marker_after_preflight_failure : ¬ finished_marker_always.
Proof.
  intros H.
  specialize (H resolve_at_root [] "nowhere" "out" sample_fs).
  revert H. apply (bool_decide_eq_false_1 _). by vm_compute.
Qed.

(** C2, amended.  When both pre-flight checks pass and the destination
    root is created or exists already, the marker is the last line that
    [main] logs, however the awaited processing ends.  When it returns,
    the marker is the only line added.  When it is interrupted by a
    [KeyboardInterrupt] or raises an [Exception], the handler logs its
    line first and [main] returns.  When it ends with an exception that
    no handler catches (the cancellation that Ctrl-C becomes under
    [asyncio.run]), the marker is the only line added and the exception
    leaves [main].  When a pre-flight check fails, the fatal error is
    the only line logged: there is no marker. *)
Theorem finished_marker_after_preflight
    (resolve : string → path) (body : path → path → world → outcome * world)
    (arg_source_dir arg_dest_dir : string) (w : world) :
  let source_dir := resolve arg_source_dir in
  let dest_dir := resolve arg_dest_dir in
  let r := main_with resolve body arg_source_dir arg_dest_dir w in
  (FS.exists_ (fs w) source_dir = true →
   source_dir ≠ dest_dir →
   (create_directory dest_dir w).1 = None →
   let b := body source_dir dest_dir (create_directory dest_dir w).2 in
   last (trace r.2) = Some (Log INFO ProcessFinished)
   ∧ fs r.2 = fs b.2
   ∧ match b.1 with
     | Returned =>
         r.1 = Returned
         ∧ trace r.2 = trace b.2 ++ [Log INFO ProcessFinished]
     | KeyboardInterrupt =>
         r.1 = Returned
         ∧ trace r.2 = trace b.2 ++ [Log INFO ProcessInterrupted;
                                     Log INFO ProcessFinished]
     | Raised e =>
         r.1 = Returned
         ∧ trace r.2 = trace b.2 ++ [Log ERROR (ProcessFailed e);
                                     Log INFO ProcessFinished]
     | RaisedBase x =>
         r.1 = RaisedBase x
         ∧ trace r.2 = trace b.2 ++ [Log INFO ProcessFinished]
     end)
  ∧ (FS.exists_ (fs w) source_dir = false ∨ source_dir = dest_dir →
     r.1 = Returned ∧ fs r.2 = fs w
     ∧ ∃ msg, trace r.2 = trace w ++ [Log ERROR msg]
              ∧ (msg = SourceDoesNotExist source_dir
                 ∨ msg = SourceAndDestinationSame)).
Proof.
  intros source_dir dest_dir r. subst r source_dir dest_dir.
  unfold main_with. split.
  - intros Hsrc Hne Hdir. rewrite Hsrc. simpl negb. cbv iota.
    rewrite decide_False by done.
    destruct (create_directory (resolve arg_dest_dir) w) as [[e|] w1];
      [done|].
    cbn [snd].
    destruct (body (resolve arg_source_dir) (resolve arg_dest_dir) w1)
      as [[| | e | x] w2]; cbn [fst snd emit trace fs];
      rewrite <- ?app_assoc; cbn [app]; (split; [|by split]).
    + apply last_snoc.
    + by rewrite (last_app_cons _ [_]).
    + by rewrite (last_app_cons _ [_]).
    + apply last_snoc.
  - intros [Hsrc | Hsame].
    + rewrite Hsrc. simpl. eauto 6.
    + destruct (negb (FS.exists_ (fs w) (resolve arg_source_dir)));
        [simpl; eauto 6|].
      rewrite decide_True by done. simpl. eauto 6.
Qed.

(** The sample tree sorted into [out]; a processing step that is
    cancelled; one that is interrupted while its own code runs; a source
    that does not exist. *)
Lemma finished_marker_after_preflight_witness :
  last (trace (main resolve_at_root [] "src" "out" (World sample_fs [])).2)
    = Some (Log INFO ProcessFinished)
  ∧ (let r := main_with resolve_at_root
                (λ _ _ w, (RaisedBase CancelledError, w))
                "src" "out" (World sample_fs []) in
     r.1 = RaisedBase CancelledError
     ∧ trace r.2 = [SysMakedirs ["out"]; Log INFO ProcessFinished])
  ∧ (let r := main_with resolve_at_root
                (λ _ _ w, (KeyboardInterrupt, w))
                "src" "out" (World sample_fs []) in
     r.1 = Returned
     ∧ trace r.2 = [SysMakedirs ["out"]; Log INFO ProcessInterrupted;
                    Log INFO ProcessFinished])
  ∧ (let r := main resolve_at_root [] "nowhere" "out" (World sample_fs []) in
     r.1 = Returned ∧ fs r.2 = sample_fs
     ∧ ∃ msg, trace r.2 = [Log ERROR msg]
              ∧ (msg = SourceDoesNotExist ["nowhere"]
                 ∨ msg = SourceAndDestinationSame)).
Proof.
  split; [|split; [|split]].
  - apply (finished_marker_after_preflight resolve_at_root
             (λ source_dir dest_dir w,
                (Returned, process_files source_dir dest_dir [] w))
             "src" "out" (World sample_fs []));
      [reflexivity | discriminate | reflexivity].
  - apply (proj1 (finished_marker_after_preflight resolve_at_root
                    (λ _ _ w, (RaisedBase CancelledError, w))
                    "src" "out" (World sample_fs [])));
      [reflexivity | discriminate | reflexivity].
  - apply (proj1 (finished_marker_after_preflight resolve_at_root
                    (λ _ _ w, (KeyboardInterrupt, w))
                    "src" "out" (World sample_fs [])));
      [reflexivity | discriminate | reflexivity].
  - apply (proj2 (finished_marker_after_preflight resolve_at_root
                    (λ source_dir dest_dir w,
                       (Returned, process_files source_dir dest_dir [] w))
                    "nowhere" "out" (World sample_fs []))).
    left. reflexivity.
Defined.

(** ** The word counter *)

(** C3.  On the text [programming is fun] the four-worker pipeline cuts
    the text into chunks of four characters, in the middle of words: it
    counts the fragments [prog], [ramm] and [ing], and misses both
    [programming] and [fun], which are the words of the whole text. *)
Theorem chunking_splits_words :
  MapReduce.parallel_map 4 "programming is fun"
    = Some [("prog", 1); ("ramm", 1); ("ing", 1)]
  ∧ MapReduce.word_frequencies "programming is fun"
    = Some {[ "prog" := 1; "ramm" := 1; "ing" := 1 ]}
  ∧ MapReduce.whole_text_frequencies "programming is fun"
    = {[ "programming" := 1; "fun" := 1 ]}
  ∧ MapReduce.word_frequencies "programming is fun"
    ≠ Some (MapReduce.whole_text_frequencies "programming is fun").
Proof.
  split; [by vm_compute|]. split; [by vm_compute|]. split; [by vm_compute|].
  apply (bool_decide_eq_false_1 _). by vm_compute.
Qed.

(** * Further properties of the code *)

(** ** The filesystem operations *)

Section FSFacts.

Lemma entry_set_entry_eq nm v es : FS.entry nm (FS.set_entry nm v es) = Some v.
Proof.
  induction es as [|[n e] es IH]; simpl.
  - by rewrite decide_True.
  - destruct (decide (n = nm)) as [->|Hne]; simpl.
    + by rewrite decide_True.
    + by rewrite decide_False.
Qed.

Lemma entry_set_entry_ne nm m v es :
  m ≠ nm → FS.entry m (FS.set_entry nm v es) = FS.entry m es.
Proof.
  intros Hm. induction es as [|[n e] es IH]; simpl.
  - by rewrite decide_False.
  - destruct (decide (n = nm)) as [->|Hne]; simpl.
    + by rewrite !decide_False.
    + by rewrite IH.
Qed.

Lemma entry_remove_entry_eq nm es : FS.entry nm (FS.remove_entry nm es) = None.
Proof.
  unfold FS.remove_entry. induction es as [|[n e] es IH]; [done|].
  rewrite filter_cons. simpl.
  destruct (decide (n ≠ nm)) as [Hne|]; [|done].
  simpl. by rewrite decide_False.
Qed.

Lemma entry_remove_entry_ne nm m es :
  m ≠ nm → FS.entry m (FS.remove_entry nm es) = FS.entry m es.
Proof.
  intros Hm. unfold FS.remove_entry.
  induction es as [|[n e] es IH]; [done|].
  rewrite filter_cons. simpl.
  destruct (decide (n ≠ nm)) as [Hne|Heq]; simpl.
  - by rewrite IH.
  - apply dec_stable in Heq. subst n. by rewrite decide_False.
Qed.

Lemma set_entry_same nm v es : FS.entry nm es = Some v → FS.set_entry nm v es = es.
Proof.
  induction es as [|[n e] es IH]; simpl; [done|].
  destruct (decide (n = nm)) as [->|Hne].
  - by intros [= ->].
  - intros H. by rewrite IH.
Qed.

Lemma entry_Some_elem nm es e : FS.entry nm es = Some e → (nm, e) ∈ es.
Proof.
  induction es as [|[n e'] es IH]; simpl; [done|].
  destruct (decide (n = nm)) as [->|Hne].
  - intros [= ->]. left.
  - intros H. right. auto.
Qed.

Lemma lookup_cons n p l w es :
  FS.lookup (n :: p) (FS.Dir l w es) = FS.entry n es ≫= FS.lookup p.
Proof. simpl. by destruct (FS.entry n es). Qed.

Lemma lookup_cons_Some n p t x :
  FS.lookup (n :: p) t = Some x →
  ∃ l w es child, t = FS.Dir l w es ∧ FS.entry n es = Some child
                  ∧ FS.lookup p child = Some x.
Proof.
  destruct t as [| l w es |]; simpl; try done.
  destruct (FS.entry n es) as [child|] eqn:He; [|done].
  intros H. by exists l, w, es, child.
Qed.

(** Nothing exists below a regular file. *)
Lemma lookup_below_file p t r d q :
  FS.lookup p t = Some (FS.File r d) → p `prefix_of` q →
  is_Some (FS.lookup q t) → q = p.
Proof.
  intros Hp [rest ->] [x Hx]. rewrite fs_lookup_app, Hp in Hx. simpl in Hx.
  destruct rest; [by rewrite app_nil_r | done].
Qed.

Lemma insert_at_cons2 n n' q v l w es :
  FS.insert_at (n :: n' :: q) v (FS.Dir l w es) =
  match FS.entry n es with
  | Some child => FS.Dir l w (FS.set_entry n (FS.insert_at (n' :: q) v child) es)
  | None => FS.Dir l w es
  end.
Proof. reflexivity. Qed.

Lemma remove_at_cons2 n n' q l w es :
  FS.remove_at (n :: n' :: q) (FS.Dir l w es) =
  match FS.entry n es with
  | Some child => FS.Dir l w (FS.set_entry n (FS.remove_at (n' :: q) child) es)
  | None => FS.Dir l w es
  end.
Proof. reflexivity. Qed.

Lemma insert_at_not_dir q v t : FS.is_dir t = false → FS.insert_at q v t = t.
Proof. by destruct q as [|n [|n' q]], t. Qed.

Lemma remove_at_not_dir q t : FS.is_dir t = false → FS.remove_at q t = t.
Proof. by destruct q as [|n [|n' q]], t. Qed.

(** Linking at [q] is invisible from a path that neither lies below [q]
    nor leads to it. *)
Lemma lookup_insert_at_frame q :
  ∀ p t v, ¬ q `prefix_of` p → ¬ p `prefix_of` q →
           FS.lookup p (FS.insert_at q v t) = FS.lookup p t.
Proof.
  induction q as [|n q IH]; intros p t v Hqp Hpq.
  - destruct Hqp. apply prefix_nil.
  - destruct p as [|m p]; [destruct Hpq; apply prefix_nil|].
    destruct t as [r d | l w es |];
      [by rewrite insert_at_not_dir | | by rewrite insert_at_not_dir].
    destruct q as [|n' q].
    + simpl FS.insert_at. rewrite !lookup_cons.
      rewrite entry_set_entry_ne; [done|].
      intros ->. apply Hqp. by apply prefix_cons, prefix_nil.
    + rewrite insert_at_cons2.
      destruct (FS.entry n es) as [child|] eqn:He; [|done].
      rewrite !lookup_cons.
      destruct (decide (m = n)) as [->|Hne].
      * rewrite entry_set_entry_eq, He. simpl. apply IH.
        -- intros H. apply Hqp. by apply prefix_cons.
        -- intros H. apply Hpq. by apply prefix_cons.
      * by rewrite entry_set_entry_ne.
Qed.

Lemma lookup_remove_at_frame q :
  ∀ p t, ¬ q `prefix_of` p → ¬ p `prefix_of` q →
         FS.lookup p (FS.remove_at q t) = FS.lookup p t.
Proof.
  induction q as [|n q IH]; intros p t Hqp Hpq.
  - destruct Hqp. apply prefix_nil.
  - destruct p as [|m p]; [destruct Hpq; apply prefix_nil|].
    destruct t as [r d | l w es |];
      [by rewrite remove_at_not_dir | | by rewrite remove_at_not_dir].
    destruct q as [|n' q].
    + simpl FS.remove_at. rewrite !lookup_cons.
      rewrite entry_remove_entry_ne; [done|].
      intros ->. apply Hqp. by apply prefix_cons, prefix_nil.
    + rewrite remove_at_cons2.
      destruct (FS.entry n es) as [child|] eqn:He; [|done].
      rewrite !lookup_cons.
      destruct (decide (m = n)) as [->|Hne].
      * rewrite entry_set_entry_eq, He. simpl. apply IH.
        -- intros H. apply Hqp. by apply prefix_cons.
        -- intros H. apply Hpq. by apply prefix_cons.
      * by rewrite entry_set_entry_ne.
Qed.

(** Unlinking at [q] leaves a directory that is not below [q] a
    directory with the same permissions. *)
Lemma lookup_remove_at_dir q :
  ∀ p t l w es, ¬ q `prefix_of` p →
    FS.lookup p t = Some (FS.Dir l w es) →
    ∃ es', FS.lookup p (FS.remove_at q t) = Some (FS.Dir l w es').
Proof.
  induction q as [|n q IH]; intros p t l w es Hqp Hp.
  - destruct Hqp. apply prefix_nil.
  - destruct p as [|m p].
    + simpl in Hp. injection Hp as ->.
      destruct q as [|n' q]; [simpl; eauto|].
      rewrite remove_at_cons2. destruct (FS.entry n es); simpl; eauto.
    + apply lookup_cons_Some in Hp as (l0 & w0 & es0 & child & -> & He & Hp).
      destruct q as [|n' q].
      * simpl FS.remove_at. rewrite lookup_cons.
        rewrite entry_remove_entry_ne, He; [simpl; eauto|].
        intros ->. apply Hqp. by apply prefix_cons, prefix_nil.
      * rewrite remove_at_cons2.
        destruct (FS.entry n es0) as [child'|] eqn:He';
          [|rewrite lookup_cons, He; simpl; eauto].
        rewrite lookup_cons.
        destruct (decide (m = n)) as [->|Hne].
        -- rewrite entry_set_entry_eq. simpl.
           rewrite He in He'. injection He' as <-.
           eapply IH; [|done]. intros H. apply Hqp. by apply prefix_cons.
        -- rewrite entry_set_entry_ne, He by done. simpl. eauto.
Qed.

(** What was linked at [q] is found at [q]. *)
Lemma lookup_insert_at_eq q :
  ∀ t v l w es, q ≠ [] →
    FS.lookup (FS.parent q) t = Some (FS.Dir l w es) →
    FS.lookup q (FS.insert_at q v t) = Some v.
Proof.
  unfold FS.parent.
  induction q as [|n q IH]; intros t v l w es Hq Hpar; [done|].
  destruct q as [|n' q].
  - simpl in Hpar. injection Hpar as ->. simpl FS.insert_at.
    rewrite lookup_cons, entry_set_entry_eq. done.
  - change (removelast (n :: n' :: q)) with (n :: removelast (n' :: q)) in Hpar.
    apply lookup_cons_Some in Hpar as (l0 & w0 & es0 & child & -> & He & Hp).
    rewrite insert_at_cons2, He, lookup_cons, entry_set_entry_eq. simpl.
    by eapply IH.
Qed.

(** What was unlinked at [q] is gone. *)
Lemma lookup_remove_at_eq q :
  ∀ t, q ≠ [] → FS.lookup q (FS.remove_at q t) = None.
Proof.
  induction q as [|n q IH]; intros t Hq; [done|].
  destruct t as [r d | l w es |];
    [by rewrite remove_at_not_dir | | by rewrite remove_at_not_dir].
  destruct q as [|n' q].
  - simpl FS.remove_at. by rewrite lookup_cons, entry_remove_entry_eq.
  - rewrite remove_at_cons2.
    destruct (FS.entry n es) as [child|] eqn:He.
    + rewrite lookup_cons, entry_set_entry_eq. simpl. by apply IH.
    + by rewrite lookup_cons, He.
Qed.


(** [makedirs] only adds directories: a regular file stays what it is. *)
Lemma makedirs_keeps_files q :
  ∀ p t t' r d,
    FS.makedirs q t = inr t' →
    FS.lookup p t = Some (FS.File r d) → FS.lookup p t' = Some (FS.File r d).
Proof.
  induction q as [|n q IH]; intros p t t' r d Hmk Hp.
  - simpl in Hmk. destruct t; by simplify_eq.
  - destruct t as [| l w es |]; simpl in Hmk; try done.
    destruct p as [|m p]; [done|].
    rewrite lookup_cons in Hp.
    destruct (FS.entry n es) as [child|] eqn:He.
    + destruct (FS.makedirs q child) as [e|child'] eqn:Hq; [done|].
      injection Hmk as <-. rewrite lookup_cons.
      destruct (decide (m = n)) as [->|Hne].
      * rewrite entry_set_entry_eq. rewrite He in Hp. simpl in *.
        by eapply IH.
      * by rewrite entry_set_entry_ne.
    + destruct w; [|done]. injection Hmk as <-. rewrite lookup_cons.
      destruct (decide (m = n)) as [->|Hne].
      * by rewrite He in Hp.
      * by rewrite entry_set_entry_ne.
Qed.


(** [exist_ok=True]: a directory that exists is accepted as it is. *)
Lemma makedirs_existing q :
  ∀ t l w es, FS.lookup q t = Some (FS.Dir l w es) → FS.makedirs q t = inr t.
Proof.
  induction q as [|n q IH]; intros t l w es Hq.
  - simpl in Hq. by injection Hq as ->.
  - apply lookup_cons_Some in Hq as (l0 & w0 & es0 & child & -> & He & Hq).
    simpl. rewrite He, (IH _ _ _ _ Hq). by rewrite set_entry_same.
Qed.

End FSFacts.

(** ** Creating a directory and moving one file *)

Section MoveFacts.

Lemma prefix_removelast (p q : path) :
  p `prefix_of` q → p ≠ q → p `prefix_of` removelast q.
Proof.
  intros [rest ->] Hne.
  assert (rest ≠ []) by (intros ->; by rewrite app_nil_r in Hne).
  rewrite removelast_app by done. by apply prefix_app_r.
Qed.

Lemma lookup_below_missing p q t :
  FS.lookup p t = None → p `prefix_of` q → FS.lookup q t = None.
Proof. intros Hp [rest ->]. by rewrite fs_lookup_app, Hp. Qed.

(** A regular file does not lead to a path whose parent is a directory,
    unless it is that path. *)
Lemma file_not_above q dst t r d l w es :
  FS.lookup q t = Some (FS.File r d) →
  FS.lookup (FS.parent dst) t = Some (FS.Dir l w es) →
  q ≠ dst → ¬ q `prefix_of` dst.
Proof.
  intros Hq Hpar Hne Hpre.
  apply prefix_removelast in Hpre; [|done].
  assert (FS.parent dst = q) as Heq
    by (eapply lookup_below_file; eauto).
  rewrite Heq, Hq in Hpar. done.
Qed.

Lemma makedirs_call_keeps_files p w q r d :
  FS.lookup q (fs w) = Some (FS.File r d) →
  FS.lookup q (fs (makedirs_call p w).2) = Some (FS.File r d).
Proof.
  intros Hq. unfold makedirs_call.
  destruct (FS.makedirs p (fs w)) as [e|t'] eqn:Hmk; simpl; [done|].
  by eapply makedirs_keeps_files.
Qed.

(** [shutil.move] of a regular file to a free path: on success the file
    is at the new path and gone from the old one; on failure it is still
    at the old path; every other regular file is as it was. *)
Lemma shutil_move_file src dst t r d :
  FS.lookup src t = Some (FS.File r d) →
  FS.exists_ t dst = false →
  match FS.shutil_move src dst t with
  | (None, t') =>
      FS.lookup dst t' = Some (FS.File r d) ∧ FS.lookup src t' = None
  | (Some _, t') => FS.lookup src t' = Some (FS.File r d)
  end
  ∧ ∀ q r' d', q ≠ src → FS.lookup q t = Some (FS.File r' d') →
               FS.lookup q (FS.shutil_move src dst t).2 = Some (FS.File r' d').
Proof.
  intros Hsrc Hdst. unfold FS.exists_ in Hdst.
  apply bool_decide_eq_false in Hdst.
  assert (Hnone : FS.lookup dst t = None).
  { destruct (FS.lookup dst t); [destruct Hdst; eauto | done]. }
  assert (Hne : dst ≠ []) by (intros ->; done).
  assert (Hsd : src ≠ dst) by (intros ->; congruence).
  unfold FS.shutil_move. rewrite Hsrc.
  destruct (FS.lookup (FS.parent dst) t) as [[| l [] es |]|] eqn:Hpar;
    try (split; [done | by intros]).
  assert (Hframe : ∀ q r' d', FS.lookup q t = Some (FS.File r' d') →
                     ¬ dst `prefix_of` q ∧ ¬ q `prefix_of` dst).
  { intros q r' d' Hq. split.
    - intros H. by rewrite (lookup_below_missing _ _ _ Hnone H) in Hq.
    - eapply file_not_above; eauto. intros ->. congruence. }
  assert (Hcopy : ∀ q r' d', FS.lookup q t = Some (FS.File r' d') →
            FS.lookup q (FS.insert_at dst (FS.File r d) t) = Some (FS.File r' d')).
  { intros q r' d' Hq. destruct (Hframe _ _ _ Hq).
    by rewrite lookup_insert_at_frame. }
  destruct (FS.lookup (FS.parent src) t) as [[| l' [] es' |]|] eqn:Hps;
    try solve [destruct r; simpl; split; eauto].
  assert (Hspar : ¬ src `prefix_of` FS.parent dst).
  { intros H.
    assert (FS.parent dst = src) as Heq by (eapply lookup_below_file; eauto).
    rewrite Heq, Hsrc in Hpar. done. }
  destruct (lookup_remove_at_dir src _ t _ _ _ Hspar Hpar) as [es'' Hpar'].
  destruct (Hframe _ _ _ Hsrc) as [Hds Hsd'].
  split; [split|].
  - by eapply lookup_insert_at_eq.
  - rewrite lookup_insert_at_frame by done.
    apply lookup_remove_at_eq. intros ->. apply Hsd'. apply prefix_nil.
  - intros q r' d' Hq Hlq. simpl.
    destruct (Hframe _ _ _ Hlq) as [Hdq Hqd].
    rewrite lookup_insert_at_frame by done.
    rewrite lookup_remove_at_frame; [done | |].
    + intros H. apply Hq. eapply lookup_below_file; eauto.
    + intros H. apply Hq. symmetry. eapply lookup_below_file; eauto.
Qed.

(** The part of [move_file] after [makedirs], for a regular file: either
    the move is reported and the file is at a path of the target
    directory that was free, or the file is still where it was and a
    warning or an error is the last line; other regular files are as
    they were. *)
Lemma move_file_resume_file source dest_dir res w r d :
  FS.lookup source (fs w) = Some (FS.File r d) →
  let w' := move_file_resume source dest_dir res w in
  ((∃ destination,
       trace w' = trace w ++ [SysMove source destination;
                              Log INFO (SuccessfullyMoved source destination)]
       ∧ FS.parent destination = target_dir_of source dest_dir
       ∧ FS.exists_ (fs w) destination = false
       ∧ FS.lookup destination (fs w') = Some (FS.File r d)
       ∧ FS.lookup source (fs w') = None)
   ∨ (FS.lookup source (fs w') = Some (FS.File r d)
      ∧ ∃ evs lvl msg, trace w' = trace w ++ evs ++ [Log lvl msg]
                       ∧ lvl ≠ INFO))
  ∧ ∀ q r' d', q ≠ source → FS.lookup q (fs w) = Some (FS.File r' d') →
               FS.lookup q (fs w') = Some (FS.File r' d').
Proof.
  intros Hsrc. unfold move_file_resume, create_directory_resume.
  destruct res as [e|]; simpl.
  { split; [|done]. right. split; [done|].
    exists [Log ERROR (ErrorCreatingDirectory (target_dir_of source dest_dir) e)],
      ERROR, (ErrorProcessingFile source e).
    by rewrite <- app_assoc. }
  destruct (resolve_destination_spec (fs w) source (target_dir_of source dest_dir))
    as (k & -> & Hfree & _).
  set (destination := Pathlib.joinpath _ _) in *.
  assert (Hdst : FS.exists_ (fs w) destination = false)
    by (unfold taken in Hfree; by destruct (FS.exists_ _ _)).
  destruct (shutil_move_file source destination (fs w) r d Hsrc Hdst)
    as [Hres Hothers].
  destruct (FS.shutil_move source destination (fs w)) as [[e|] t'] eqn:Hmv;
    simpl in *.
  - split; [|by destruct e]. right.
    assert (Hshape : ∀ lvl msg, lvl ≠ INFO →
      FS.lookup source t' = Some (FS.File r d) ∧
      ∃ evs lvl' msg', trace w ++ [SysMove source destination; Log lvl msg]
                       = trace w ++ evs ++ [Log lvl' msg'] ∧ lvl' ≠ INFO).
    { intros lvl msg Hl. split; [done|].
      by exists [SysMove source destination], lvl, msg. }
    destruct e; by apply Hshape.
  - split; [|done]. left. exists destination.
    destruct Hres as [Hd Hs]. repeat split; try done.
    unfold destination, FS.parent, Pathlib.joinpath. apply removelast_last.
Qed.

End MoveFacts.

Lemma makedirs_keeps_existing q :
  ∀ p t t', FS.makedirs q t = inr t' →
            is_Some (FS.lookup p t) → is_Some (FS.lookup p t').
Proof.
  induction q as [|n q IH]; intros p t t' Hmk Hp.
  - simpl in Hmk. destruct t; by simplify_eq.
  - destruct t as [| l w es |]; simpl in Hmk; try done.
    destruct p as [|m p]; [simpl; eauto|].
    rewrite lookup_cons in Hp.
    destruct (FS.entry n es) as [child|] eqn:He.
    + destruct (FS.makedirs q child) as [e|child'] eqn:Hq; [done|].
      injection Hmk as <-. rewrite lookup_cons.
      destruct (decide (m = n)) as [->|Hne].
      * rewrite entry_set_entry_eq. rewrite He in Hp. simpl in *.
        by eapply IH.
      * by rewrite entry_set_entry_ne.
    + destruct w; [|done]. injection Hmk as <-. rewrite lookup_cons.
      destruct (decide (m = n)) as [->|Hne].
      * rewrite He in Hp. by destruct Hp.
      * by rewrite entry_set_entry_ne.
Qed.

Lemma makedirs_call_keeps_free p w q :
  FS.exists_ (fs (makedirs_call p w).2) q = false →
  FS.exists_ (fs w) q = false.
Proof.
  unfold FS.exists_, makedirs_call. rewrite !bool_decide_eq_false.
  destruct (FS.makedirs p (fs w)) as [e|t'] eqn:Hmk; simpl; [done|].
  intros Hfree Hex. apply Hfree. by eapply makedirs_keeps_existing.
Qed.


(** X2.  [create_directory] on a directory that exists already succeeds
    and changes nothing in the filesystem ([exist_ok=True]). *)
Theorem create_directory_existing
    (p : path) (w : world) (l wr : bool) (es : list (string * FS.node)) :
  FS.lookup p (fs w) = Some (FS.Dir l wr es) →
  create_directory p w = (None, World (fs w) (trace w ++ [SysMakedirs p])).
Proof.
  intros Hp. unfold create_directory, makedirs_call.
  by rewrite (makedirs_existing _ _ _ _ _ Hp).
Qed.

Lemma create_directory_existing_witness :
  create_directory ["src"; "sub"] (World sample_fs [])
  = (None, World sample_fs [SysMakedirs ["src"; "sub"]]).
Proof.
  eapply (create_directory_existing ["src"; "sub"] (World sample_fs [])).
  reflexivity.
Defined.

(** X3.  [move_file] on a regular file never loses it.  Either the last
    line logged reports the move, and then the file is at a path of the
    directory [dest_dir/key] that was free before the call and is gone
    from its old path; or the last line is a warning or an error, and
    then the file is still at its old path. *)
Theorem move_file_relocates_or_keeps
    (source dest_dir : path) (w : world) (r : bool) (d : string) :
  FS.lookup source (fs w) = Some (FS.File r d) →
  let w' := move_file source dest_dir w in
  (∃ destination,
      last (trace w') = Some (Log INFO (SuccessfullyMoved source destination))
      ∧ FS.parent destination = Pathlib.joinpath dest_dir (extension_key source)
      ∧ FS.exists_ (fs w) destination = false
      ∧ FS.lookup destination (fs w') = Some (FS.File r d)
      ∧ FS.lookup source (fs w') = None)
  ∨ (FS.lookup source (fs w') = Some (FS.File r d)
     ∧ ∃ lvl msg, last (trace w') = Some (Log lvl msg) ∧ lvl ≠ INFO).
Proof.
  intros Hsrc. unfold move_file, move_file_begin.
  pose proof (makedirs_call_keeps_files (target_dir_of source dest_dir) w
                _ _ _ Hsrc) as Hsrc1.
  pose proof (makedirs_call_keeps_free (target_dir_of source dest_dir) w) as Hfree.
  destruct (makedirs_call (target_dir_of source dest_dir) w) as [res w1].
  simpl in *.
  destruct (move_file_resume_file source dest_dir res w1 r d Hsrc1)
    as [[(dst & Htr & Hpar & Hex & Hd & Hs) | (Hs & evs & lvl & msg & Htr & Hl)] _].
  - left. exists dst. rewrite Htr.
    repeat split; try done; [|by apply Hfree].
    by rewrite (last_app_cons _ [_]).
  - right. split; [done|]. exists lvl, msg. rewrite Htr. split; [|done].
    by rewrite app_assoc, last_snoc.
Qed.

Lemma move_file_relocates_or_keeps_witness :
  let w' := move_file ["src"; "a.txt"] ["out"] (World sample_fs []) in
  (∃ destination,
      last (trace w')
        = Some (Log INFO (SuccessfullyMoved ["src"; "a.txt"] destination))
      ∧ FS.parent destination = ["out"; "txt"]
      ∧ FS.exists_ sample_fs destination = false
      ∧ FS.lookup destination (fs w') = Some (FS.File true "A")
      ∧ FS.lookup ["src"; "a.txt"] (fs w') = None)
  ∨ (FS.lookup ["src"; "a.txt"] (fs w') = Some (FS.File true "A")
     ∧ ∃ lvl msg, last (trace w') = Some (Log lvl msg) ∧ lvl ≠ INFO).
Proof.
  apply (move_file_relocates_or_keeps ["src"; "a.txt"] ["out"]
           (World sample_fs []) true "A").
  reflexivity.
Defined.

(** X4.  [move_file] on a regular file leaves every other regular file
    where it is and as it is: nothing is overwritten or removed. *)
Theorem move_file_keeps_other_files
    (source dest_dir : path) (w : world) (rs : bool) (ds : string)
    (q : path) (r : bool) (d : string) :
  FS.lookup source (fs w) = Some (FS.File rs ds) →
  q ≠ source →
  FS.lookup q (fs w) = Some (FS.File r d) →
  FS.lookup q (fs (move_file source dest_dir w)) = Some (FS.File r d).
Proof.
  intros Hsrc Hne Hq. unfold move_file, move_file_begin.
  pose proof (makedirs_call_keeps_files (target_dir_of source dest_dir) w
                _ _ _ Hsrc) as Hsrc1.
  pose proof (makedirs_call_keeps_files (target_dir_of source dest_dir) w
                _ _ _ Hq) as Hq1.
  destruct (makedirs_call (target_dir_of source dest_dir) w) as [res w1].
  simpl in *.
  destruct (move_file_resume_file source dest_dir res w1 rs ds Hsrc1)
    as [_ Hothers].
  by apply Hothers.
Qed.

(** The file [dest/txt/a.txt] keeps its content when another [a.txt] is
    moved in. *)
Lemma move_file_keeps_other_files_witness :
  FS.lookup ["dest"; "txt"; "a.txt"]
    (fs (move_file ["in"; "a.txt"] ["dest"] (World collision_scenario_fs [])))
  = Some (FS.File true "first").
Proof.
  apply (move_file_keeps_other_files ["in"; "a.txt"] ["dest"]
           (World collision_scenario_fs []) true "second");
    [reflexivity | discriminate | reflexivity].
Defined.

(** ** The walker on a well-formed tree *)

Section WalkerFacts.

Lemma unique_names_dir l w es :
  unique_names (FS.Dir l w es) = true →
  NoDup es.*1 ∧ ∀ n e, (n, e) ∈ es → unique_names e = true.
Proof.
  simpl. intros [Hnd Hall]%andb_prop. split; [by apply bool_decide_eq_true in Hnd|].
  clear Hnd. induction es as [|[n' e'] es IH]; intros n e Hin.
  - by apply elem_of_nil in Hin.
  - apply andb_prop in Hall as [He Hes].
    apply elem_of_cons in Hin as [[= -> ->] | Hin]; [done | by eapply IH].
Qed.

Lemma NoDup_entry n e es : NoDup es.*1 → (n, e) ∈ es → FS.entry n es = Some e.
Proof.
  induction es as [|[n' e'] es IH]; intros Hnd Hin.
  - by apply elem_of_nil in Hin.
  - rewrite fmap_cons in Hnd. apply NoDup_cons in Hnd as [Hn' Hnd]. simpl.
    apply elem_of_cons in Hin as [[= -> ->] | Hin].
    + by rewrite decide_True.
    + rewrite decide_False; [by apply IH|].
      intros ->. apply Hn'. apply list_elem_of_fmap. by exists (n, e).
Qed.

Lemma unique_names_lookup p :
  ∀ t nd, unique_names t = true → FS.lookup p t = Some nd →
          unique_names nd = true.
Proof.
  induction p as [|n p IH]; intros t nd Hwf Hp.
  - simpl in Hp. by injection Hp as <-.
  - apply lookup_cons_Some in Hp as (l & w & es & child & -> & He & Hp).
    apply unique_names_dir in Hwf as [_ Hall].
    eapply IH; [|done]. eapply Hall. by apply entry_Some_elem.
Qed.

Lemma get_all_files_at_file (nd : FS.node) :
  unique_names nd = true →
  ∀ source_dir p,
    p ∈ (get_all_files_at source_dir nd).1 →
    ∃ rel d, p = source_dir ++ rel ∧ rel ≠ [] ∧
             FS.lookup rel nd = Some (FS.File true d).
Proof.
  induction nd as [r d | | l w es IH] using node_nested_ind;
    intros Hwf source_dir p; simpl;
    destruct (decide (Pathlib.name source_dir ∈ SYSTEM_DIRS)) as [|Hroot];
    simpl; try set_solver.
  destruct l; simpl; [|set_solver].
  intros (nm & e & Hin & Hp)%scan_entries_elem.
  apply unique_names_dir in Hwf as [Hnd Hall].
  pose proof (NoDup_entry _ _ _ Hnd Hin) as He.
  unfold visit_entry in Hp.
  destruct (FS.is_dir e && bool_decide (nm ∈ SYSTEM_DIRS)); [set_solver|].
  destruct (FS.is_file e) eqn:Hfile.
  - destruct e as [[] d | |]; simpl in Hp; try set_solver.
    apply elem_of_singleton in Hp as ->.
    exists [nm], d. split; [done|]. split; [done|]. by rewrite lookup_cons, He.
  - destruct (FS.is_dir e && negb (Str.startswith "." nm)); [|set_solver].
    rewrite Forall_forall in IH.
    destruct (IH _ Hin (Hall _ _ Hin) _ _ Hp) as (rel & d & -> & Hrel & Hl).
    exists (nm :: rel), d. split; [|split; [done|]].
    + unfold Pathlib.joinpath. by rewrite <- app_assoc.
    + by rewrite lookup_cons, He.
Qed.


End WalkerFacts.

(** X5.  On a tree in which no directory lists a name twice, every path
    the walker returns is a readable regular file of the tree and lies
    strictly below the source directory. *)
Theorem walker_returns_readable_files
    (fs : FS.node) (source_dir p : path) :
  unique_names fs = true →
  p ∈ (get_all_files fs source_dir).1 →
  (∃ d, FS.lookup p fs = Some (FS.File true d))
  ∧ source_dir `prefix_of` p ∧ p ≠ source_dir.
Proof.
  intros Hwf. unfold get_all_files.
  destruct (FS.lookup source_dir fs) as [nd|] eqn:Hnd;
    [|case_decide; set_solver].
  intros (rel & d & -> & Hrel & Hl)%get_all_files_at_file;
    [|by eapply unique_names_lookup].
  split; [|split].
  - exists d. by rewrite fs_lookup_app, Hnd.
  - by apply prefix_app_r.
  - intros H. apply Hrel. apply (app_inv_head source_dir).
    by rewrite app_nil_r.
Qed.

Lemma walker_returns_readable_files_witness :
  (∃ d, FS.lookup ["src"; "sub"; "photo.JPG"] sample_fs
        = Some (FS.File true d))
  ∧ ["src"] `prefix_of` ["src"; "sub"; "photo.JPG"]
  ∧ ["src"; "sub"; "photo.JPG"] ≠ ["src"].
Proof.
  apply (walker_returns_readable_files sample_fs ["src"]
           ["src"; "sub"; "photo.JPG"]).
  - reflexivity.
  - compute_done.
Defined.



(** ** Accounting in the gather *)

Lemma div10_succ n :
  if decide (S n `mod` 10 = 0)
  then S n / 10 = S (n / 10) ∧ 10 * S (n / 10) = S n
  else S n / 10 = n / 10.
Proof.
  pose proof (Nat.div_mod_eq n 10) as H.
  pose proof (Nat.div_mod_eq (S n) 10) as H0.
  pose proof (Nat.mod_upper_bound n 10 ltac:(done)) as H1.
  pose proof (Nat.mod_upper_bound (S n) 10 ltac:(done)) as H2.
  case_decide as H3; revert H H0 H1 H2 H3;
    generalize (S n `mod` 10) (n `mod` 10) (S n `div` 10) (n `div` 10);
    intros; lia.
Qed.

Section Accounting.

Variables (dest_dir : path) (total_files : nat) (w0 : world) (files : list path).

Local Abbreviation acc := (accounted total_files w0 files).

Lemma move_file_resume_events source res w :
  ∃ evs, trace (move_file_resume source dest_dir res w) = trace w ++ evs
         ∧ outcomes evs = [source] ∧ progress_lines evs = [].
Proof.
  unfold move_file_resume, create_directory_resume.
  destruct res as [e|]; simpl.
  { eexists. rewrite <- app_assoc. split; [done|]. by split. }
  destruct (resolve_destination_spec (fs w) source (target_dir_of source dest_dir))
    as (k & -> & _).
  destruct (FS.shutil_move _ _ _) as [[[]|] t']; simpl; eexists; by split.
Qed.

Lemma makedirs_call_events p w :
  trace (makedirs_call p w).2 = trace w ++ [SysMakedirs p].
Proof. unfold makedirs_call. by destruct (FS.makedirs p (fs w)). Qed.

Lemma finished_of_middle l1 file ph l2 :
  finished_of (l1 ++ (file, ph) :: l2)
  = finished_of l1 ++ (if decide (ph = Finished) then [file] else [])
    ++ finished_of l2.
Proof.
  unfold finished_of.
  rewrite filter_app, filter_cons, fmap_app. simpl.
  by destruct (decide (ph = Finished)).
Qed.

Lemma turn_accounted i s s' :
  move_with_progress dest_dir total_files i s = Some s' →
  acc s → acc s'.
Proof.
  unfold move_with_progress, accounted, set_phase, finished_files.
  destruct s as [w v n tasks]. cbn [g_tasks g_world g_processed_files g_semaphore].
  destruct (tasks !! i) as [[file ph]|] eqn:Hi; [|done].
  intros Hstep (Hfiles & Hn & evs & Htr & Hout & Hprog).
  assert (Hfst : ∀ ph', (<[i:=(file, ph')]> tasks).*1 = files).
  { intros ph'. rewrite list_fmap_insert. simpl.
    rewrite list_insert_id; [done|]. by rewrite list_lookup_fmap, Hi. }
  destruct ph as [| | r |]; [| | |done].
  - destruct v as [|v]; [done|]. injection Hstep as <-.
    cbn [g_tasks g_world g_processed_files g_semaphore].
    split; [apply Hfst|].
    destruct (phase_update _ _ _ (file, Acquired) Hi) as (l1 & l2 & -> & ->).
    rewrite finished_of_middle in *.
    rewrite !decide_False in * by done.
    split; [done|]. by exists evs.
  - pose proof (makedirs_call_events (target_dir_of file dest_dir) w) as Hev.
    unfold move_file_begin in Hstep.
    destruct (makedirs_call _ w) as [r w1]. injection Hstep as <-.
    cbn [g_tasks g_world g_processed_files g_semaphore snd] in *.
    split; [apply Hfst|].
    destruct (phase_update _ _ _ (file, Resumable r) Hi) as (l1 & l2 & -> & ->).
    rewrite finished_of_middle in *.
    rewrite !decide_False in * by done.
    split; [done|]. exists (evs ++ [SysMakedirs (target_dir_of file dest_dir)]).
    rewrite Hev, Htr, app_assoc. split; [done|].
    unfold outcomes, progress_lines in *. rewrite !omap_app. simpl.
    by rewrite !app_nil_r.
  - apply (inj Some) in Hstep as <-.
    cbn [g_tasks g_world g_processed_files g_semaphore].
    split; [apply Hfst|].
    destruct (phase_update _ _ _ (file, Finished) Hi) as (l1 & l2 & -> & ->).
    rewrite finished_of_middle in *.
    rewrite decide_False in Hn, Hout by done.
    rewrite decide_True by done.
    rewrite !length_app in *. simpl length in *.
    split; [lia|].
    destruct (move_file_resume_events file r w) as (evs1 & Htr1 & Hout1 & Hprog1).
    pose proof (div10_succ n) as Hdiv.
    destruct (decide (S n `mod` 10 = 0)) as [Hten|Hten].
    + exists (evs ++ evs1 ++ [Log INFO (Progress (S n) total_files)]).
      cbn [emit trace]. rewrite Htr1, Htr, <- !app_assoc. split; [done|].
      unfold outcomes, progress_lines in *. rewrite !omap_app, Hout1, Hprog1.
      simpl omap. rewrite app_nil_r. split.
      * rewrite Hout. simpl app.
        rewrite <- Permutation_cons_append. apply Permutation_middle.
      * destruct Hdiv as [-> Hmul]. rewrite seq_S, fmap_app, Hprog.
        rewrite app_nil_l. f_equal. rewrite Nat.add_0_l.
        change ([(S n, total_files)] = [(10 * S (n / 10), total_files)]).
        by rewrite Hmul.
    + exists (evs ++ evs1). rewrite Htr1, Htr, <- !app_assoc. split; [done|].
      unfold outcomes, progress_lines in *. rewrite !omap_app, Hout1, Hprog1.
      rewrite app_nil_r, Hdiv. split; [|done].
      rewrite Hout. simpl app.
      rewrite <- Permutation_cons_append. apply Permutation_middle.
Qed.

Lemma event_loop_accounted fuel :
  ∀ schedule s,
    acc s → acc (event_loop dest_dir total_files schedule fuel s).
Proof.
  induction fuel as [|fuel IH]; intros schedule s Hacc; [done|].
  rewrite event_loop_turn.
  destruct (ready s) as [|i0 rest]; [done|].
  destruct (move_with_progress _ _ _ s) as [s'|] eqn:Hstep; [|done].
  apply IH. by eapply turn_accounted.
Qed.

Lemma gather_init_accounted : acc (gather_init w0 files).
Proof.
  unfold accounted, gather_init, finished_files, finished_of.
  cbn [g_tasks g_world g_processed_files].
  assert (Hnone : filter (λ t : path * phase, t.2 = Finished)
                    ((λ file, (file, Queued)) <$> files) = []).
  { induction files as [|f fs IH]; [done|].
    rewrite fmap_cons, filter_cons_False; done. }
  rewrite Hnone. split.
  - rewrite <- list_fmap_compose. apply list_fmap_id.
  - split; [done|]. exists []. by rewrite app_nil_r.
Qed.

Lemma all_finished_files s :
  Forall (λ t, t.2 = Finished) (g_tasks s) → finished_files s = (g_tasks s).*1.
Proof.
  unfold finished_files, finished_of. intros Hall. f_equal.
  induction Hall as [|t l Ht Hall IH]; [done|].
  by rewrite filter_cons_True, IH.
Qed.

End Accounting.

(** X7.  Whatever the schedule, when the gather ends the counter
    [processed_files] equals the number of files, and the log settles
    every file exactly once: the files named by the lines "moved",
    "no permission", "error moving" and "error processing" are the given
    files, each as often as it was given. *)
Theorem gather_settles_every_file_once
    (w : world) (dest_dir : path) (files : list path) (schedule : list nat) :
  let s := gather dest_dir schedule w files in
  g_processed_files s = length files
  ∧ ∃ evs, trace (g_world s) = trace w ++ evs ∧ outcomes evs ≡ₚ files.
Proof.
  intros s.
  destruct (gather_init_balanced w files) as [Hbal Hturns].
  assert (Hdone : total_turns_left s = 0)
    by (apply event_loop_completes; [done | lia]).
  apply no_turns_left_finished in Hdone as [Hall _].
  destruct (event_loop_accounted dest_dir (length files) w files
              (3 * length files) schedule _
              (gather_init_accounted (length files) w files))
    as (Hfiles & Hn & evs & Htr & Hout & _).
  fold (gather dest_dir schedule w files) in Hfiles, Hn, Htr, Hout.
  fold s in Hfiles, Hn, Htr, Hout.
  rewrite (all_finished_files _ Hall), Hfiles in Hn, Hout.
  split; [done|]. by exists evs.
Qed.

(** X8.  Whatever the schedule, the progress lines of a gather over [n]
    files are, in this order, [10/n], [20/n], ... up to the last multiple
    of ten that is at most [n]: one line after every tenth completed task
    and none for fewer than ten files. *)
Theorem gather_progress_lines
    (w : world) (dest_dir : path) (files : list path) (schedule : list nat) :
  let s := gather dest_dir schedule w files in
  ∃ evs, trace (g_world s) = trace w ++ evs
         ∧ progress_lines evs
           = (λ k, (10 * S k, length files)) <$> seq 0 (length files / 10).
Proof.
  intros s.
  destruct (gather_init_balanced w files) as [Hbal Hturns].
  assert (Hdone : total_turns_left s = 0)
    by (apply event_loop_completes; [done | lia]).
  apply no_turns_left_finished in Hdone as [Hall _].
  destruct (event_loop_accounted dest_dir (length files) w files
              (3 * length files) schedule _
              (gather_init_accounted (length files) w files))
    as (Hfiles & Hn & evs & Htr & _ & Hprog).
  fold (gather dest_dir schedule w files) in Hfiles, Hn, Htr, Hprog.
  fold s in Hfiles, Hn, Htr, Hprog.
  rewrite (all_finished_files _ Hall), Hfiles in Hn.
  exists evs. split; [done|]. by rewrite Hn in Hprog.
Qed.

(** ** No file is lost in the gather *)

Section Safety.

Variables (dest_dir : path) (total_files : nat) (fs0 : FS.node).

Lemma elem_of_finished_of q l : q ∈ finished_of l ↔ (q, Finished) ∈ l.
Proof.
  unfold finished_of. rewrite list_elem_of_fmap. split.
  - intros ([q' ph] & -> & [Hph Hin]%list_elem_of_filter).
    simpl in *. by subst ph.
  - intros Hin. exists (q, Finished). split; [done|].
    by apply list_elem_of_filter.
Qed.

Lemma unique_task l1 l2 (file : path) (ph : phase) q ph0 :
  NoDup (l1 ++ (file, ph) :: l2).*1 → (q, ph0) ∈ l1 ++ l2 → q ≠ file.
Proof.
  rewrite fmap_app, fmap_cons. simpl.
  intros (_ & Hl1 & [Hl2 _]%NoDup_cons)%NoDup_app Hin ->.
  apply elem_of_app in Hin as [Hin | Hin].
  - apply (Hl1 file); [|left]. apply list_elem_of_fmap. by exists (file, ph0).
  - apply Hl2. apply list_elem_of_fmap. by exists (file, ph0).
Qed.

Lemma unique_phase (l : list (path * phase)) q ph1 ph2 :
  NoDup l.*1 → (q, ph1) ∈ l → (q, ph2) ∈ l → ph1 = ph2.
Proof.
  induction l as [|[q' ph'] l IH]; intros Hnd H1 H2.
  - by apply elem_of_nil in H1.
  - rewrite fmap_cons in Hnd. apply NoDup_cons in Hnd as [Hq' Hnd]. simpl in Hq'.
    apply elem_of_cons in H1 as [Heq1 | H1];
      apply elem_of_cons in H2 as [Heq2 | H2].
    + congruence.
    + injection Heq1 as -> ->. destruct Hq'.
      apply list_elem_of_fmap. by exists (q', ph2).
    + injection Heq2 as -> ->. destruct Hq'.
      apply list_elem_of_fmap. by exists (q', ph1).
    + by apply IH.
Qed.

Lemma elem_of_middle {A} (x y : A) l1 l2 :
  x ∈ l1 ++ y :: l2 ↔ x = y ∨ x ∈ l1 ++ l2.
Proof. rewrite !elem_of_app, elem_of_cons. tauto. Qed.

(** What a turn does, seen from outside: it changes the phase of one
    task; before the last turn of the task regular files are kept as
    they are; the last turn is the resumed part of [move_file], possibly
    followed by a progress line. *)
Lemma turn_shape i s s' :
  move_with_progress dest_dir total_files i s = Some s' →
  ∃ file ph ph' l1 l2,
    g_tasks s = l1 ++ (file, ph) :: l2 ∧ g_tasks s' = l1 ++ (file, ph') :: l2
    ∧ (∃ evs, trace (g_world s') = trace (g_world s) ++ evs)
    ∧ ((ph ≠ Finished ∧ ph' ≠ Finished
        ∧ ∀ q r d, FS.lookup q (fs (g_world s)) = Some (FS.File r d) →
                   FS.lookup q (fs (g_world s')) = Some (FS.File r d))
       ∨ (∃ res, ph = Resumable res ∧ ph' = Finished
            ∧ fs (g_world s')
              = fs (move_file_resume file dest_dir res (g_world s))
            ∧ ∃ evs, trace (g_world s')
                     = trace (move_file_resume file dest_dir res (g_world s))
                       ++ evs)).
Proof.
  intros Hstep. pose proof (turn_extends _ _ _ _ _ Hstep) as Hext.
  revert Hstep. unfold move_with_progress, set_phase.
  destruct (g_tasks s !! i) as [[file ph]|] eqn:Hi; [|done].
  destruct ph as [| | res |]; [| | |done].
  - destruct (g_semaphore s) as [|v]; [done|]. intros Hs.
    apply (inj Some) in Hs as <-.
    destruct (phase_update _ _ _ (file, Acquired) Hi) as (l1 & l2 & H1 & H2).
    exists file, Queued, Acquired, l1, l2. cbn [g_tasks g_world] in *.
    split; [done|]. split; [done|]. split; [done|]. left. by repeat split.
  - unfold move_file_begin.
    pose proof (makedirs_call_keeps_files (target_dir_of file dest_dir)
                  (g_world s)) as Hkeep.
    destruct (makedirs_call _ _) as [res w1]. intros Hs.
    apply (inj Some) in Hs as <-.
    destruct (phase_update _ _ _ (file, Resumable res) Hi) as (l1 & l2 & H1 & H2).
    exists file, Acquired, (Resumable res), l1, l2.
    cbn [g_tasks g_world snd] in *.
    split; [done|]. split; [done|]. split; [done|]. left.
    split; [done|]. split; [done|]. apply Hkeep.
  - intros Hs. apply (inj Some) in Hs as <-.
    destruct (phase_update _ _ _ (file, Finished) Hi) as (l1 & l2 & H1 & H2).
    exists file, (Resumable res), Finished, l1, l2.
    cbn [g_tasks g_world] in *.
    split; [done|]. split; [done|]. split; [done|]. right. exists res.
    split; [done|]. split; [done|]. split.
    + by case_decide.
    + case_decide; [by eexists | exists []; by rewrite app_nil_r].
Qed.

Lemma turn_content_safe i s s' :
  NoDup (g_tasks s).*1 →
  (∀ f ph, (f, ph) ∈ g_tasks s → ∃ r d, FS.lookup f fs0 = Some (FS.File r d)) →
  move_with_progress dest_dir total_files i s = Some s' →
  content_safe dest_dir fs0 s → content_safe dest_dir fs0 s'.
Proof.
  intros Hnd Hfiles Hstep Hsafe.
  destruct (turn_shape _ _ _ Hstep)
    as (file & ph & ph' & l1 & l2 & Hs & Hs' & [evs Hevs] & Hcase).
  unfold content_safe, finished_files in *. rewrite Hs, Hs' in *.
  intros q r d Hq0. destruct (Hsafe q r d Hq0) as [Hkeep Hfin].
  rewrite !elem_of_finished_of, !elem_of_middle in *.
  assert (Hgrow : ∀ ev, ev ∈ trace (g_world s) → ev ∈ trace (g_world s')).
  { intros ev Hev. rewrite Hevs. apply elem_of_app. by left. }
  destruct Hcase as [(Hph & Hph' & Hfiles') | (res & -> & -> & Hfs & evs' & Htr)].
  - (* the task only takes a slot, or only creates its directory *)
    split.
    + intros Hq. apply Hfiles', Hkeep. intros [[= _ <-] | Hin]; [done|].
      apply Hq. by right.
    + intros [[= _ <-] | Hin]; [done|].
      destruct Hfin as [Hq | (dst & Hlog & Hpar & Hdst & Hunf)]; [by right | |].
      * left. by apply Hfiles'.
      * right. exists dst. split; [by apply Hgrow|]. split; [done|].
        split; [by apply Hfiles'|].
        intros ph0. rewrite elem_of_middle. intros [[= -> ->] | Hin'].
        -- destruct Hph. apply (Hunf ph). apply elem_of_middle. by left.
        -- apply Hunf. apply elem_of_middle. by right.
  - (* the task moves its file *)
    destruct (Hfiles file (Resumable res)) as (rf & df & Hf0);
      [apply elem_of_middle; by left|].
    assert (Hfnow : FS.lookup file (fs (g_world s)) = Some (FS.File rf df)).
    { destruct (Hsafe file rf df Hf0) as [Hk _]. apply Hk.
      rewrite elem_of_finished_of, elem_of_middle.
      intros [[=] | Hin]. by eapply unique_task. }
    destruct (move_file_resume_file file dest_dir res (g_world s) rf df Hfnow)
      as [Hmoved Hothers].
    rewrite <- Hfs in Hmoved, Hothers.
    split.
    + intros Hq. apply Hothers.
      * intros ->. apply Hq. by left.
      * apply Hkeep. intros [[=] | Hin]. apply Hq. by right.
    + intros [[= ->] | Hin].
      * (* the file of this task *)
        rewrite Hq0 in Hf0. injection Hf0 as <- <-.
        destruct Hmoved as [(dst & Htr' & Hpar & Hfree & Hdst & _) | [Hsrc _]];
          [|by left].
        right. exists dst. split; [|split; [done|]; split; [done|]].
        -- rewrite Htr, Htr'. rewrite !elem_of_app.
           left. right. right. left.
        -- intros ph0. rewrite elem_of_middle.
           intros [[= _ ->] | Hin]; [done|].
           destruct (decide (ph0 = Finished)) as [|Hunf]; [done|]. exfalso.
           destruct (Hfiles dst ph0) as (rd & dd & Hd0);
             [apply elem_of_middle; by right|].
           destruct (Hsafe dst rd dd Hd0) as [Hk _].
           unfold FS.exists_ in Hfree. apply bool_decide_eq_false in Hfree.
           apply Hfree. rewrite Hk; [done|].
           rewrite elem_of_finished_of, elem_of_middle.
           intros [[=] | Hin'].
           assert (NoDup (l1 ++ l2).*1) as Hnd'.
           { rewrite fmap_app, fmap_cons in Hnd. rewrite fmap_app.
             apply NoDup_app in Hnd as (Ha & Hb & [_ Hc]%NoDup_cons).
             apply NoDup_app. repeat split; [done | | done].
             intros x Hx Hx'. apply (Hb x Hx). by right. }
           apply Hunf. by eapply (unique_phase (l1 ++ l2) dst).
      * (* the file of a task that had finished before *)
        assert (q ≠ file) as Hne by (by eapply unique_task).
        destruct Hfin as [Hq | (dst & Hlog & Hpar & Hdst & Hunf)]; [by right | |].
        -- left. by apply Hothers.
        -- right. exists dst. split; [by apply Hgrow|]. split; [done|]. split.
           ++ apply Hothers; [|done]. intros ->.
              specialize (Hunf (Resumable res)). rewrite elem_of_middle in Hunf.
              by specialize (Hunf (or_introl eq_refl)).
           ++ intros ph0. rewrite elem_of_middle.
              intros [[= _ ->] | Hin']; [done|].
              apply Hunf. apply elem_of_middle. by right.
Qed.

Lemma turn_same_tasks i s s' :
  move_with_progress dest_dir total_files i s = Some s' →
  (g_tasks s').*1 = (g_tasks s).*1
  ∧ ∀ f ph', (f, ph') ∈ g_tasks s' → ∃ ph, (f, ph) ∈ g_tasks s.
Proof.
  intros (file & ph & ph' & l1 & l2 & -> & -> & _)%turn_shape. split.
  - by rewrite !fmap_app, !fmap_cons.
  - intros f ph0. rewrite elem_of_middle. intros [[= -> ->] | Hin].
    + exists ph. apply elem_of_middle. by left.
    + exists ph0. apply elem_of_middle. by right.
Qed.

Lemma event_loop_content_safe fuel :
  ∀ schedule s,
    NoDup (g_tasks s).*1 →
    (∀ f ph, (f, ph) ∈ g_tasks s →
             ∃ r d, FS.lookup f fs0 = Some (FS.File r d)) →
    content_safe dest_dir fs0 s →
    content_safe dest_dir fs0
      (event_loop dest_dir total_files schedule fuel s).
Proof.
  induction fuel as [|fuel IH]; intros schedule s Hnd Hfiles Hsafe; [done|].
  rewrite event_loop_turn.
  destruct (ready s) as [|i0 rest]; [done|].
  destruct (move_with_progress _ _ _ s) as [s'|] eqn:Hstep; [|done].
  destruct (turn_same_tasks _ _ _ Hstep) as [Hsame Hmem].
  apply IH.
  - by rewrite Hsame.
  - intros f ph' Hin. destruct (Hmem _ _ Hin) as [ph Hin']. eauto.
  - by eapply turn_content_safe.
Qed.

End Safety.

Lemma gather_init_content_safe dest_dir w files :
  content_safe dest_dir (fs w) (gather_init w files).
Proof.
  intros q r d Hq. unfold finished_files, gather_init. cbn [g_tasks g_world].
  assert (Hnone : finished_of ((λ file, (file, Queued)) <$> files) = []).
  { unfold finished_of. induction files as [|f fs' IH]; [done|].
    rewrite fmap_cons, filter_cons_False; done. }
  rewrite Hnone. split; [done|]. by intros ?%elem_of_nil.
Qed.

(** The gather over files that are regular files of the tree, each given
    once. *)
Lemma gather_content_safe dest_dir schedule w files :
  NoDup files →
  (∀ f, f ∈ files → ∃ r d, FS.lookup f (fs w) = Some (FS.File r d)) →
  let s := gather dest_dir schedule w files in
  content_safe dest_dir (fs w) s ∧ finished_files s = files.
Proof.
  intros Hnd Hfiles s.
  assert (Hfst : (g_tasks (gather_init w files)).*1 = files).
  { unfold gather_init. cbn [g_tasks]. rewrite <- list_fmap_compose.
    apply list_fmap_id. }
  split.
  - apply event_loop_content_safe.
    + by rewrite Hfst.
    + intros f ph Hin. apply Hfiles. rewrite <- Hfst.
      apply list_elem_of_fmap. by exists (f, ph).
    + apply gather_init_content_safe.
  - destruct (gather_init_balanced w files) as [Hbal Hturns].
    assert (Hdone : total_turns_left s = 0)
      by (apply event_loop_completes; [done | lia]).
    apply no_turns_left_finished in Hdone as [Hall _].
    rewrite (all_finished_files _ Hall).
    by destruct (event_loop_accounted dest_dir (length files) w files
                   (3 * length files) schedule _
                   (gather_init_accounted (length files) w files)) as [Hacc _].
Qed.

Lemma collected_is_file (fs : FS.node) (source_dir p : path) :
  unique_names fs = true →
  p ∈ (get_all_files fs source_dir).1 →
  ∃ d, FS.lookup p fs = Some (FS.File true d).
Proof.
  intros Hwf. unfold get_all_files.
  destruct (FS.lookup source_dir fs) as [nd|] eqn:Hnd;
    [|case_decide; set_solver].
  intros (rel & d & -> & Hrel & Hl)%get_all_files_at_file;
    [|by eapply unique_names_lookup].
  exists d. by rewrite fs_lookup_app, Hnd.
Qed.

(** What [process_files] leaves behind, for every schedule. *)
Lemma process_files_content_safe source_dir dest_dir schedule w q r d :
  unique_names (fs w) = true →
  FS.lookup q (fs w) = Some (FS.File r d) →
  let w' := process_files source_dir dest_dir schedule w in
  (q ∉ (get_all_files (fs w) source_dir).1 →
     FS.lookup q (fs w') = Some (FS.File r d))
  ∧ (FS.lookup q (fs w') = Some (FS.File r d)
     ∨ ∃ dst, Log INFO (SuccessfullyMoved q dst) ∈ trace w'
              ∧ FS.parent dst = Pathlib.joinpath dest_dir (extension_key q)
              ∧ FS.lookup dst (fs w') = Some (FS.File r d)).
Proof.
  intros Hwf Hq. unfold process_files.
  pose proof (collected_is_file (fs w) source_dir) as Hcoll.
  destruct (get_all_files (fs w) source_dir) as [files evs]. cbn [fst] in *.
  case_decide; [by split; [|left]|].
  destruct (gather_content_safe dest_dir schedule (emit evs w) (elements files))
    as [Hsafe Hfin].
  { apply NoDup_elements. }
  { intros f Hf%elem_of_elements. destruct (Hcoll f Hwf Hf) as [df Hdf]. eauto. }
  destruct (Hsafe q r d Hq) as [Hkeep Hmoved]. rewrite Hfin in Hkeep, Hmoved.
  cbn [emit fs trace]. split.
  - intros Hnot. apply Hkeep. by rewrite elem_of_elements.
  - destruct (decide (q ∈ elements files)) as [Hin|Hnin]; [|left; by apply Hkeep].
    destruct (Hmoved Hin) as [Hleft | (dst & Hlog & Hpar & Hdst & _)];
      [by left|].
    right. exists dst. split; [|by split]. apply elem_of_app. by left.
Qed.

(** X9.  [process_files] loses no file, whatever the schedule.  On a tree
    in which no directory lists a name twice, every regular file of the
    tree is, when [process_files] ends, either still at its path with its
    content, or at the destination that the log reports for it, a path
    directly inside [dest_dir/key], with its content. *)
Theorem process_files_loses_no_file
    (source_dir dest_dir : path) (schedule : list nat) (w : world)
    (q : path) (r : bool) (d : string) :
  unique_names (fs w) = true →
  FS.lookup q (fs w) = Some (FS.File r d) →
  let w' := process_files source_dir dest_dir schedule w in
  FS.lookup q (fs w') = Some (FS.File r d)
  ∨ ∃ dst, Log INFO (SuccessfullyMoved q dst) ∈ trace w'
           ∧ FS.parent dst = Pathlib.joinpath dest_dir (extension_key q)
           ∧ FS.lookup dst (fs w') = Some (FS.File r d).
Proof.
  intros Hwf Hq.
  by destruct (process_files_content_safe source_dir dest_dir schedule w q r d
                 Hwf Hq) as [_ H].
Qed.

Lemma process_files_loses_no_file_witness :
  let w' := process_files ["src"] ["out"] [3; 1; 4; 1; 5; 9; 2; 6]
              (World sample_fs []) in
  FS.lookup ["src"; "sub"; "photo.JPG"] (fs w') = Some (FS.File true "P")
  ∨ ∃ dst, Log INFO (SuccessfullyMoved ["src"; "sub"; "photo.JPG"] dst) ∈ trace w'
           ∧ FS.parent dst = ["out"; "jpg"]
           ∧ FS.lookup dst (fs w') = Some (FS.File true "P").
Proof.
  apply (process_files_loses_no_file ["src"] ["out"] [3; 1; 4; 1; 5; 9; 2; 6]
           (World sample_fs []) ["src"; "sub"; "photo.JPG"] true "P");
    reflexivity.
Defined.



(** ** The extension key *)

Section KeyFacts.

Lemma rfind_last c s :
  ∀ i rest, Str.rfind c s = Some i → Str.slice_from i s = String c rest →
            Str.rfind c rest = None.
Proof.
  induction s as [|a s IH]; intros i rest; simpl; [done|].
  destruct (Str.rfind c s) as [j|] eqn:Hj.
  - intros [= <-]. simpl. by apply IH.
  - destruct (decide (a = c)) as [->|]; [|done].
    intros [= <-]. simpl. by intros [= <-].
Qed.

Lemma lower_char_dot a : Str.lower_char a = "."%char ↔ a = "."%char.
Proof.
  destruct a as [[] [] [] [] [] [] [] []]; vm_compute; split; congruence.
Qed.

Lemma rfind_lower s : Str.rfind "." (Str.lower s) = Str.rfind "." s.
Proof.
  induction s as [|a s IH]; simpl; [done|]. rewrite IH.
  destruct (Str.rfind "." s); [done|].
  destruct (decide (a = "."%char)) as [->|Hne]; [done|].
  rewrite decide_False; [done|]. by rewrite lower_char_dot.
Qed.

Lemma length_lower s : String.length (Str.lower s) = String.length s.
Proof. induction s as [|a s IH]; simpl; [done | by rewrite IH]. Qed.

Lemma slice_from_lower i :
  ∀ s, Str.slice_from i (Str.lower s) = Str.lower (Str.slice_from i s).
Proof. induction i as [|i IH]; intros [|a s]; simpl; auto. Qed.

Lemma lower_nil s : Str.lower s = "" ↔ s = "".
Proof. by destruct s. Qed.

Lemma suffix_of_lower nm :
  Pathlib.suffix_of (Str.lower nm) = Str.lower (Pathlib.suffix_of nm).
Proof.
  unfold Pathlib.suffix_of, Pathlib.suffix_index.
  rewrite rfind_lower, length_lower.
  destruct (Str.rfind "." nm) as [i|]; [|done].
  destruct ((0 <? i) && (i <? String.length nm - 1)); [|done].
  apply slice_from_lower.
Qed.

(** The key of a path is the key of its name in lower case. *)
Lemma extension_key_lower file :
  extension_key file
  = if decide (Pathlib.suffix_of (Str.lower (Pathlib.name file)) = "")
    then "no_extension"
    else Str.slice_from 1 (Pathlib.suffix_of (Str.lower (Pathlib.name file))).
Proof.
  unfold extension_key, Pathlib.suffix. rewrite suffix_of_lower.
  destruct (decide (Pathlib.suffix_of (Pathlib.name file) = "")) as [->|Hne].
  - done.
  - rewrite decide_False by (by rewrite lower_nil).
    by rewrite slice_from_lower.
Qed.

(** A suffix is empty, or a dot followed by a non-empty string without a
    dot. *)
Lemma suffix_cases nm :
  Pathlib.suffix_of nm = "" ∨
  ∃ rest, rest ≠ "" ∧ Pathlib.suffix_of nm = String "." rest
          ∧ Str.rfind "." rest = None.
Proof.
  destruct (suffix_shape nm) as [H | (e & He & H)]; [by left|]. right.
  exists e. split; [done|]. split; [done|].
  revert H. unfold Pathlib.suffix_of, Pathlib.suffix_index.
  destruct (Str.rfind "." nm) as [i|] eqn:Hi; [|done].
  destruct ((0 <? i) && (i <? String.length nm - 1)); [|done].
  intros H. by eapply rfind_last.
Qed.

End KeyFacts.

(** X11.  The extension key is a plain directory name: it is never empty
    and contains no dot, so [archive.tar.gz] is filed under [gz] and every
    target directory is a direct child of the destination root. *)
Theorem extension_key_plain (file : path) :
  extension_key file ≠ ""
  ∧ Str.rfind "." (extension_key file) = None
  ∧ extension_key ["downloads"; "archive.tar.gz"] = "gz".
Proof.
  split; [|split; [|done]].
  - unfold extension_key, Pathlib.suffix.
    destruct (suffix_cases (Pathlib.name file)) as [-> | (rest & Hne & -> & _)].
    + done.
    + rewrite decide_False by done. simpl. by rewrite lower_nil.
  - unfold extension_key, Pathlib.suffix.
    destruct (suffix_cases (Pathlib.name file)) as [-> | (rest & Hne & -> & Hr)].
    + done.
    + rewrite decide_False by done. simpl. by rewrite rfind_lower.
Qed.

(** X12.  For file names of ASCII characters the extension key ignores
    the case of the name: two paths whose names are equal up to the case
    of their letters get the same key, whatever their directories. *)
Theorem extension_key_ignores_case (file1 file2 : path) :
  all_chars is_ascii_char (Pathlib.name file1) = true →
  all_chars is_ascii_char (Pathlib.name file2) = true →
  Str.lower (Pathlib.name file1) = Str.lower (Pathlib.name file2) →
  extension_key file1 = extension_key file2.
Proof. intros _ _ H. by rewrite !extension_key_lower, H. Qed.

Lemma extension_key_ignores_case_witness :
  extension_key ["a"; "Photo.JPG"] = extension_key ["b"; "c"; "photo.jpg"].
Proof.
  apply (extension_key_ignores_case ["a"; "Photo.JPG"] ["b"; "c"; "photo.jpg"]);
    reflexivity.
Defined.

(** ** The word counter *)

Section WordFacts.

Lemma all_chars_app P a b :
  all_chars P (a +:+ b) = all_chars P a && all_chars P b.
Proof.
  induction a as [|c a IH]; [done|].
  rewrite str_app_cons. simpl. by rewrite IH, andb_assoc.
Qed.

(** Tokens are non-empty runs of word characters. *)
Lemma findall_go_word s :
  ∀ cur t, all_chars Str.is_word_char cur = true →
           t ∈ MapReduce.findall_go cur s →
           all_chars Str.is_word_char t = true ∧ t ≠ "".
Proof.
  induction s as [|c s IH]; intros cur t Hcur; simpl.
  - destruct (decide (cur = "")); [by intros ?%elem_of_nil|].
    by intros ->%list_elem_of_singleton.
  - destruct (Str.is_word_char c) eqn:Hc.
    + apply IH. rewrite all_chars_app, Hcur. simpl. by rewrite Hc.
    + destruct (decide (cur = "")) as [->|Hne]; [by apply (IH "")|].
      intros [-> | Hin]%elem_of_cons; [done | by apply (IH "")].
Qed.

(** Tokens are made of characters of the text. *)
Lemma findall_go_inherit P s :
  ∀ cur t, all_chars P cur = true → all_chars P s = true →
           t ∈ MapReduce.findall_go cur s → all_chars P t = true.
Proof.
  induction s as [|c s IH]; intros cur t Hcur Hs; simpl.
  - destruct (decide (cur = "")); [by intros ?%elem_of_nil|].
    by intros ->%list_elem_of_singleton.
  - simpl in Hs. apply andb_prop in Hs as [Hc Hs].
    destruct (Str.is_word_char c).
    + apply IH; [|done]. rewrite all_chars_app, Hcur. simpl. by rewrite Hc.
    + destruct (decide (cur = "")) as [->|Hne]; [by apply (IH "")|].
      intros [-> | Hin]%elem_of_cons; [done | by apply (IH "")].
Qed.

(** A token is no longer than what was read. *)
Lemma findall_go_length s :
  ∀ cur t, t ∈ MapReduce.findall_go cur s →
           String.length t ≤ String.length cur + String.length s.
Proof.
  induction s as [|c s IH]; intros cur t; simpl.
  - destruct (decide (cur = "")); [by intros ?%elem_of_nil|].
    intros ->%list_elem_of_singleton. lia.
  - destruct (Str.is_word_char c).
    + intros Hin%IH. rewrite str_length_app in Hin. simpl in Hin. lia.
    + destruct (decide (cur = "")); [intros Hin%IH; simpl in Hin; lia|].
      intros [-> | Hin%IH]%elem_of_cons; simpl in *; lia.
Qed.

Lemma lower_all_lower s : all_chars is_lower_char (Str.lower s) = true.
Proof.
  induction s as [|c s IH]; simpl; [done|]. rewrite IH, andb_true_r.
  apply bool_decide_eq_true. apply lower_char_idemp.
Qed.

Lemma all_lower_fixed s : all_chars is_lower_char s = true → Str.lower s = s.
Proof.
  induction s as [|c s IH]; simpl; [done|].
  intros [Hc Hs]%andb_prop. apply bool_decide_eq_true in Hc.
  by rewrite Hc, IH.
Qed.

Lemma total_count_absent (l : list (string * nat)) (word : string) :
  word ∉ l.*1 → total_count word l = 0.
Proof.
  unfold total_count. induction l as [|[w c] l IH]; [done|].
  rewrite fmap_cons, not_elem_of_cons. simpl. intros [Hne Hnin].
  rewrite decide_False by done. by apply IH.
Qed.

Lemma reduce_from (mapped_data : list (string * nat)) (word : string) :
  ∀ acc : gmap string nat,
    foldl (λ word_counts '(word, count),
             <[word := default 0 (word_counts !! word) + count]> word_counts)
          acc mapped_data !! word
    = if decide (word ∈ mapped_data.*1)
      then Some (default 0 (acc !! word) + total_count word mapped_data)
      else acc !! word.
Proof.
  induction mapped_data as [|[w c] l IH]; intros acc.
  - done.
  - cbn [foldl]. rewrite IH, fmap_cons. unfold total_count.
    cbn [fst sum_list_with snd]. fold (total_count word l).
    rewrite lookup_insert.
    destruct (decide (w = word)) as [->|Hne].
    + rewrite (decide_True (P := word ∈ word :: l.*1)) by left.
      destruct (decide (word ∈ l.*1)) as [|Hnin]; simpl; f_equal; [lia|].
      rewrite (total_count_absent _ _ Hnin). lia.
    + destruct (decide (word ∈ l.*1)) as [Hin|Hnin].
      * rewrite decide_True by (by right). done.
      * rewrite decide_False; [done|].
        by intros [?|?]%elem_of_cons.
Qed.

Lemma slice_to_length i : ∀ s, String.length (Str.slice_to i s) ≤ i.
Proof. induction i as [|i IH]; intros [|c s]; simpl; try lia. specialize (IH s). lia. Qed.

Lemma slice_to_all i : ∀ s, String.length s ≤ i → Str.slice_to i s = s.
Proof.
  induction i as [|i IH]; intros [|c s]; simpl; try done; try lia.
  intros H. rewrite IH; [done | lia].
Qed.

Lemma slice_to_add a : ∀ b s,
  Str.slice_to a s +:+ Str.slice_to b (Str.slice_from a s) = Str.slice_to (a + b) s.
Proof.
  induction a as [|a IH]; intros b [|c s]; simpl; try done.
  - by destruct b.
  - by rewrite str_app_cons, IH.
Qed.

Lemma join_app l1 l2 : join (l1 ++ l2) = join l1 +:+ join l2.
Proof.
  unfold join. induction l1 as [|x l1 IH]; simpl; [done|].
  by rewrite IH, str_app_assoc.
Qed.

Lemma str_app_nil_r s : s +:+ "" = s.
Proof. induction s as [|c s IH]; [done|]. by rewrite str_app_cons, IH. Qed.

(** The first [m] chunks of size [size] are the first [m * size]
    characters. *)
Lemma join_slices text size m :
  join ((λ i, Str.slice i (i + size) text) <$> ((λ k, k * size) <$> seq 0 m))
  = Str.slice_to (m * size) text.
Proof.
  induction m as [|m IH]; [done|].
  rewrite seq_S, !fmap_app, join_app, IH. simpl.
  unfold Str.slice.
  replace (m * size + size - m * size) with size by lia.
  rewrite str_app_nil_r, slice_to_add. f_equal. lia.
Qed.

Lemma filter_none {A} (P : A → Prop) `{∀ x, Decision (P x)} (l : list A) :
  Forall (λ x, ¬ P x) l → filter P l = [].
Proof.
  induction 1 as [|x l Hx _ IH]; [done|]. by rewrite filter_cons_False.
Qed.

Lemma concat_nils {A} (l : list (list A)) : Forall (λ x, x = []) l → concat l = [].
Proof. induction 1 as [|x l -> _ IH]; [done | by simpl]. Qed.

End WordFacts.

(** X13.  [reduce_function] adds up the counts of each word: a word that
    occurs in the mapped data is mapped to the sum of its counts, and a
    word that does not occur has no entry. *)
Theorem reduce_function_counts
    (mapped_data : list (string * nat)) (word : string) :
  MapReduce.reduce_function mapped_data !! word
  = if decide (word ∈ mapped_data.*1)
    then Some (total_count word mapped_data) else None.
Proof.
  unfold MapReduce.reduce_function. rewrite reduce_from, lookup_empty.
  by destruct (decide (word ∈ mapped_data.*1)).
Qed.

(** X14.  Every pair that [map_function] emits carries the count 1 and a
    word of more than two characters that is in lower case and consists
    of word characters only. *)
Theorem map_function_words (text word : string) (count : nat) :
  (word, count) ∈ MapReduce.map_function text →
  count = 1 ∧ 2 < String.length word ∧ Str.lower word = word
  ∧ all_chars Str.is_word_char word = true.
Proof.
  unfold MapReduce.map_function, MapReduce.findall_words.
  intros (w & [= -> ->] & [Hlen Hin]%list_elem_of_filter)%list_elem_of_fmap.
  repeat split.
  - exact Hlen.
  - apply all_lower_fixed.
    apply (findall_go_inherit is_lower_char (Str.lower text) "" w eq_refl
             (lower_all_lower text) Hin).
  - apply (findall_go_word (Str.lower text) "" w eq_refl Hin).
Qed.

Lemma map_function_words_witness :
  1 = 1 ∧ 2 < String.length "fun" ∧ Str.lower "fun" = "fun"
  ∧ all_chars Str.is_word_char "fun" = true.
Proof.
  apply (map_function_words "Programming is FUN!" "fun" 1).
  compute_done.
Defined.

(** X15.  For a positive number of workers [parallel_map] maps
    [map_function] over the chunks, and the chunks are a partition of the
    text: joined in order they give the text back, so no character is
    dropped or read twice. *)
Theorem chunks_partition_text (num_workers : nat) (text : string) :
  num_workers ≠ 0 →
  MapReduce.parallel_map num_workers text
    = Some (concat (MapReduce.map_function <$> chunks num_workers text))
  ∧ join (chunks num_workers text) = text.
Proof.
  intros Hn. split.
  - unfold MapReduce.parallel_map. by rewrite decide_False.
  - unfold chunks, MapReduce.range_step.
    set (size := (String.length text / num_workers) `max` 1).
    assert (Hsize : 0 < size) by (unfold size; lia).
    rewrite join_slices. apply slice_to_all.
    set (n := String.length text).
    pose proof (Nat.div_mod_eq (n + size - 1) size) as Hdm.
    pose proof (Nat.mod_upper_bound (n + size - 1) size ltac:(lia)) as Hm.
    rewrite (Nat.mul_comm _ size). lia.
Qed.

Lemma chunks_partition_text_witness :
  MapReduce.parallel_map 4 "programming is fun"
    = Some (concat (MapReduce.map_function <$> chunks 4 "programming is fun"))
  ∧ join (chunks 4 "programming is fun") = "programming is fun".
Proof. apply (chunks_partition_text 4 "programming is fun"). discriminate. Defined.

(** X16.  With a single worker the whole text is one chunk, and
    [parallel_map] returns what [map_function] returns for the text. *)
Theorem parallel_map_single_worker (text : string) :
  MapReduce.parallel_map 1 text = Some (MapReduce.map_function text).
Proof.
  unfold MapReduce.parallel_map, MapReduce.range_step.
  rewrite decide_False by done. f_equal.
  rewrite Nat.div_1_r.
  destruct text as [|c text]; [done|].
  set (t := String c text). set (n := String.length t).
  assert (Hn : 0 < n) by (unfold n, t; simpl; lia).
  replace (n `max` 1) with n by lia.
  replace ((n + n - 1) / n) with 1
    by (apply (Nat.div_unique _ _ 1 (n - 1)); lia).
  simpl. unfold Str.slice. simpl.
  rewrite slice_to_all by done. by rewrite app_nil_r.
Qed.

(** X17.  A text shorter than three characters per worker yields no word
    at all: every chunk has at most two characters, and [map_function]
    keeps only words of more than two. *)
Theorem parallel_map_short_text (num_workers : nat) (text : string) :
  num_workers ≠ 0 →
  String.length text < 3 * num_workers →
  MapReduce.parallel_map num_workers text = Some [].
Proof.
  intros Hn Hshort. unfold MapReduce.parallel_map.
  rewrite decide_False by done. f_equal.
  set (size := (String.length text / num_workers) `max` 1).
  assert (Hsize : size ≤ 2).
  { assert (String.length text / num_workers < 3)
      by (apply Nat.Div0.div_lt_upper_bound; lia).
    unfold size. lia. }
  apply concat_nils. rewrite Forall_fmap, Forall_fmap.
  apply Forall_forall. intros i _. simpl.
  unfold MapReduce.map_function, MapReduce.findall_words.
  rewrite filter_none; [done|].
  apply Forall_forall. intros t Hin%findall_go_length.
  rewrite length_lower in Hin. unfold Str.slice in Hin.
  pose proof (slice_to_length (i + size - i) (Str.slice_from i text)).
  simpl in Hin. lia.
Qed.

Lemma parallel_map_short_text_witness :
  MapReduce.parallel_map 4 "hello world" = Some [].
Proof.
  apply (parallel_map_short_text 4 "hello world"); [discriminate | simpl; lia].
Defined.

(** ** The summary and the orchestrator *)

Section SummaryFacts.

Lemma item_le_total : Total item_le.
Proof.
  intros x y. unfold item_le.
  destruct (decide (x.1 = y.1)) as [Heq|Hne].
  - rewrite decide_True by done. lia.
  - rewrite decide_False by done. apply (total String.le).
Qed.

Lemma sorted_by_key (l : list (string * nat)) :
  Sorted item_le l → NoDup l.*1 →
  Sorted (λ x y, String.le x.1 y.1 ∧ x.1 ≠ y.1) l.
Proof.
  induction 1 as [|x l Hs IH Hhd]; intros Hnd; [constructor|].
  rewrite fmap_cons in Hnd. apply NoDup_cons in Hnd as [Hx Hnd].
  constructor; [by apply IH|].
  destruct Hhd as [|y l Hxy]; constructor.
  assert (x.1 ≠ y.1) as Hne.
  { intros Heq. apply Hx. rewrite fmap_cons, Heq. left. }
  split; [|done]. unfold item_le in Hxy. by rewrite decide_False in Hxy.
Qed.

Lemma counted_insert (m : gmap string nat) (k : string) :
  counted (<[k := S (default 0 (m !! k))]> m) = S (counted m).
Proof.
  unfold counted. destruct (m !! k) as [n|] eqn:Hk; simpl.
  - rewrite <- (map_to_list_delete m k n Hk).
    rewrite <- insert_delete_eq.
    rewrite map_to_list_insert by apply lookup_delete_eq. done.
  - by rewrite map_to_list_insert.
Qed.

Lemma counted_from (files : list path) :
  ∀ acc : gmap string nat,
    counted (foldl (λ counts file,
                      let ext := extension_key file in
                      <[ext := S (default 0 (counts !! ext))]> counts)
                   acc files)
    = counted acc + length files.
Proof.
  induction files as [|file files IH]; intros acc; simpl; [lia|].
  rewrite IH, counted_insert. lia.
Qed.

End SummaryFacts.

(** X18.  The breakdown is listed in lexicographic order of the extension
    keys, each key once: [sorted] puts the items of the dictionary in
    strictly increasing order of their keys. *)
Theorem breakdown_sorted_by_key (counts : gmap string nat) :
  Sorted (λ x y, String.le x.1 y.1 ∧ x.1 ≠ y.1) (sorted_items counts)
  ∧ sorted_items counts ≡ₚ map_to_list counts.
Proof.
  unfold sorted_items. split; [|apply merge_sort_Permutation].
  apply sorted_by_key.
  - apply (@Sorted_merge_sort _ item_le _ item_le_total).
  - rewrite merge_sort_Permutation. apply NoDup_fst_map_to_list.
Qed.

(** X19.  The counts of the breakdown add up to the number of files they
    were taken from, which is the total that [process_files] logs. *)
Theorem breakdown_counts_add_up (files : list path) :
  sum_list_with snd (sorted_items (extension_counts files)) = length files.
Proof.
  unfold sorted_items. rewrite merge_sort_Permutation.
  pose proof (counted_from files ∅) as H. unfold counted in H at 1.
  unfold extension_counts. rewrite H. done.
Qed.





(** ** What is read and what is moved *)

Section Moves.

Lemma scan_entries_events (P : event → Prop) recurse source_dir es :
  (∀ nm e, (nm, e) ∈ es → Forall P (visit_entry recurse source_dir nm e).2) →
  Forall P (scan_entries recurse source_dir es).2.
Proof.
  induction es as [|[n e] es IH]; intros H; simpl; [constructor|].
  apply Forall_app. split.
  - apply H. left.
  - apply IH. intros nm e' Hin. apply H. by right.
Qed.

Lemma get_all_files_at_read_only (nd : FS.node) :
  ∀ source_dir,
    Forall (λ ev, read_only_event ev = true) (get_all_files_at source_dir nd).2.
Proof.
  induction nd as [r d | | l w es IH] using node_nested_ind;
    intros source_dir; simpl;
    destruct (decide (Pathlib.name source_dir ∈ SYSTEM_DIRS));
    simpl; try (by repeat constructor).
  destruct l; simpl; [|by repeat constructor].
  constructor; [done|]. apply scan_entries_events.
  intros nm e Hin. unfold visit_entry.
  destruct (FS.is_dir e && bool_decide (nm ∈ SYSTEM_DIRS));
    [by repeat constructor|].
  destruct (FS.is_file e).
  - destruct e as [[] ? | |]; by repeat constructor.
  - destruct (FS.is_dir e && negb (Str.startswith "." nm)); [|constructor].
    rewrite Forall_forall in IH. apply (IH _ Hin).
Qed.

Variables (dest_dir : path) (total_files : nat).

Lemma move_file_resume_moves source res w :
  ∃ evs, trace (move_file_resume source dest_dir res w) = trace w ++ evs
         ∧ Forall (move_into dest_dir [source]) evs.
Proof.
  unfold move_file_resume, create_directory_resume.
  destruct res as [e|]; simpl.
  { eexists. rewrite <- app_assoc. split; [done|]. by repeat constructor. }
  destruct (resolve_destination_spec (fs w) source (target_dir_of source dest_dir))
    as (k & -> & _).
  assert (Hmove : move_into dest_dir [source]
                    (SysMove source (Pathlib.joinpath
                       (target_dir_of source dest_dir) (candidate source k)))).
  { split; [left|]. unfold FS.parent, Pathlib.joinpath. apply removelast_last. }
  destruct (FS.shutil_move _ _ _) as [[[]|] t']; simpl; eexists;
    (split; [done|]);
    (constructor; [exact Hmove|]; constructor; [exact I|]; constructor).
Qed.

Lemma move_into_mono files files' ev :
  files ⊆ files' → move_into dest_dir files ev → move_into dest_dir files' ev.
Proof. intros Hsub. destruct ev; simpl; try done. intros [? ?]. split; auto. Qed.

Lemma turn_moves_into i s s' :
  move_with_progress dest_dir total_files i s = Some s' →
  ∃ evs, trace (g_world s') = trace (g_world s) ++ evs
         ∧ Forall (move_into dest_dir (g_tasks s).*1) evs.
Proof.
  unfold move_with_progress.
  destruct (g_tasks s !! i) as [[file ph]|] eqn:Hi; [|done].
  assert (Hfile : [file] ⊆ (g_tasks s).*1).
  { intros f ->%list_elem_of_singleton. apply list_elem_of_fmap.
    exists (file, ph). split; [done|]. by eapply list_elem_of_lookup_2. }
  destruct ph as [| | res |]; [| | |done].
  - destruct (g_semaphore s); [done|]. intros Hs. apply (inj Some) in Hs as <-.
    exists []. by rewrite app_nil_r.
  - unfold move_file_begin.
    pose proof (makedirs_call_events (target_dir_of file dest_dir) (g_world s))
      as Hev.
    destruct (makedirs_call _ _) as [res w1]. intros Hs.
    apply (inj Some) in Hs as <-. cbn [g_world snd] in *.
    eexists. split; [done|]. by repeat constructor.
  - intros Hs. apply (inj Some) in Hs as <-. cbn [g_world].
    destruct (move_file_resume_moves file res (g_world s)) as (evs & Htr & Hall).
    assert (Hall' : Forall (move_into dest_dir (g_tasks s).*1) evs).
    { eapply Forall_impl; [done|]. intros ev. by apply move_into_mono. }
    case_decide.
    + eexists. cbn [emit trace]. rewrite Htr, <- app_assoc. split; [done|].
      apply Forall_app. split; [done|]. by repeat constructor.
    + by exists evs.
Qed.

Lemma event_loop_moves_into fuel :
  ∀ schedule s,
    ∃ evs, trace (g_world (event_loop dest_dir total_files schedule fuel s))
           = trace (g_world s) ++ evs
           ∧ Forall (move_into dest_dir (g_tasks s).*1) evs.
Proof.
  induction fuel as [|fuel IH]; intros schedule s.
  - exists []. by rewrite app_nil_r.
  - rewrite event_loop_turn.
    destruct (ready s) as [|i0 rest]; [exists []; by rewrite app_nil_r|].
    destruct (move_with_progress _ _ _ s) as [s'|] eqn:Hstep;
      [|exists []; by rewrite app_nil_r].
    destruct (turn_moves_into _ _ _ Hstep) as (evs1 & H1 & Hall1).
    destruct (IH (tail schedule) s') as (evs2 & H2 & Hall2).
    destruct (turn_same_tasks _ _ _ _ _ Hstep) as [Hsame _].
    rewrite Hsame in Hall2.
    exists (evs1 ++ evs2). rewrite H2, H1, app_assoc. split; [done|].
    by apply Forall_app.
Qed.

End Moves.

Lemma read_only_move_into dest_dir files ev :
  read_only_event ev = true → move_into dest_dir files ev.
Proof. by destruct ev. Qed.

Lemma walker_read_only_moves dest_dir fs source_dir files :
  Forall (move_into dest_dir files) (get_all_files fs source_dir).2.
Proof.
  eapply Forall_impl; [|intros ev; apply read_only_move_into].
  unfold get_all_files. destruct (FS.lookup source_dir fs).
  - apply get_all_files_at_read_only.
  - case_decide; by repeat constructor.
Qed.

(** X22.  The walk only reads: none of the events of [get_all_files] is
    a [makedirs] call or a move. *)
Theorem walker_only_reads (fs : FS.node) (source_dir : path) :
  Forall (λ ev, read_only_event ev = true) (get_all_files fs source_dir).2.
Proof.
  unfold get_all_files. destruct (FS.lookup source_dir fs).
  - apply get_all_files_at_read_only.
  - case_decide; by repeat constructor.
Qed.

(** X23.  Whatever the schedule, every move that [process_files] attempts
    takes a file that the walker returned to a path directly inside
    [dest_dir/key], where [key] is the extension key of that file:
    nothing else is moved and nothing is moved anywhere else. *)
Theorem process_files_moves_into_destination
    (source_dir dest_dir : path) (schedule : list nat) (w : world) :
  ∃ evs,
    trace (process_files source_dir dest_dir schedule w) = trace w ++ evs
    ∧ Forall (move_into dest_dir
                (elements (get_all_files (fs w) source_dir).1)) evs.
Proof.
  unfold process_files.
  pose proof (λ files, walker_read_only_moves dest_dir (fs w) source_dir files)
    as Hwalk.
  destruct (get_all_files (fs w) source_dir) as [files evs]. cbn [fst snd] in *.
  case_decide.
  - eexists. cbn [emit trace]. rewrite <- app_assoc. split; [done|].
    apply Forall_app. split; [apply Hwalk | by repeat constructor].
  - destruct (event_loop_moves_into dest_dir (length (elements files))
                (3 * length (elements files)) schedule
                (gather_init (emit evs w) (elements files)))
      as (during & Htr & Hall).
    assert (Hfst : (g_tasks (gather_init (emit evs w) (elements files))).*1
                   = elements files).
    { unfold gather_init. cbn [g_tasks]. rewrite <- list_fmap_compose.
      apply list_fmap_id. }
    rewrite Hfst in Hall.
    eexists. unfold gather. unfold emit at 1. cbn [trace fs]. rewrite Htr.
    cbn [gather_init g_world emit trace]. rewrite <- !app_assoc.
    split; [done|].
    apply Forall_app. split; [apply Hwalk|].
    apply Forall_app. split; [done|]. simpl.
    constructor; [exact I|]. constructor; [exact I|].
    unfold breakdown_lines. rewrite Forall_fmap. by apply Forall_true.
Qed.

(** * Files are sorted whatever their name *)

(** ** Directories persist *)

Section DirFacts.








End DirFacts.

(** ** A permitted move succeeds *)

Section Course.

Variables (dest_dir : path) (total_files : nat).













End Course.

(** ** A permitted move is carried out, whatever the schedule *)

Section OnCourse.

Variables (dest_dir : path) (total_files : nat) (fs0 : FS.node).
Variables (f0 : path) (r0 : bool) (d0 : string).




End OnCourse.


(** ** Hidden files *)

Section HiddenFiles.











End HiddenFiles.


